(** * kyushi-web: the page generator [scripts/generate_docs.py]

    A shallow embedding of the generator and the properties its
    description states about it.

    Conventions of the embedding.
    - A Python [str] is a list of Unicode code points ([N]).  Literals
      are written as UTF-8 Rocq strings and decoded by [u].
    - A Python [int] is a [Z].
    - Exceptions are the [Raise] results of the [result] type; code that
      reads and writes files runs in the monad [M] over a file system
      that stores, for a file of UTF-8 text, the text
      [Path.read_text] returns for it (decoded, line ends read as line
      feeds) and [Path.write_text] receives; a file whose bytes are not
      UTF-8 text is kept apart, and reading it raises.
    - [yaml.safe_load], [str.lower] and the long fixed script block of the
      home page are parameters of the functions that use them. *)

From Stdlib Require Import List NArith ZArith Bool String Ascii Lia.
From Stdlib Require Import Permutation Sorted.
From Stdlib Require Decimal DecimalZ.
Import ListNotations.

Set Implicit Arguments.

(* ================================================================== *)
(** * Python text *)

Definition char := N.
Definition str := list char.

Module Py.

(** ** Literals *)

Fixpoint bytes_of (s : string) : list N :=
match s with
| EmptyString => []
| String a s' => N_of_ascii a :: bytes_of s'
end.

(** UTF-8 decoding of a literal (literals are well-formed). *)
Fixpoint utf8 (bs : list N) : str :=
match bs with
| [] => []
| b1 :: r1 =>
  if (b1 <? 128)%N then b1 :: utf8 r1
  else match r1 with
  | [] => []
  | b2 :: r2 =>
    if (b1 <? 224)%N then ((b1 - 192) * 64 + (b2 - 128))%N :: utf8 r2
    else match r2 with
    | [] => []
    | b3 :: r3 =>
      if (b1 <? 240)%N
      then ((b1 - 224) * 4096 + (b2 - 128) * 64 + (b3 - 128))%N :: utf8 r3
      else match r3 with
      | [] => []
      | b4 :: r4 =>
        ((b1 - 240) * 262144 + (b2 - 128) * 4096
         + (b3 - 128) * 64 + (b4 - 128))%N :: utf8 r4
      end
    end
  end
end.

Definition u (s : string) : str := utf8 (bytes_of s).

Definition LF : char := 10%N.
Definition CR : char := 13%N.
(** The double quote (U+0022). *)
Definition DQ : char := 34%N.

(** ** Comparison *)

Fixpoint str_eqb (a b : str) : bool :=
match a, b with
| [], [] => true
| x :: a', y :: b' => (x =? y)%N && str_eqb a' b'
| _, _ => false
end.

(** [a < b] on [str]: lexicographic on code points. *)
Fixpoint str_ltb (a b : str) : bool :=
match a, b with
| _, [] => false
| [], _ :: _ => true
| x :: a', y :: b' =>
  if (x <? y)%N then true
  else if (y <? x)%N then false
  else str_ltb a' b'
end.

(** ** Character classes *)

Definition mem (c : char) (l : list char) : bool :=
existsb (N.eqb c) l.

(** [str.isspace], which is also what [strip()] removes and what [\s]
  matches in a [str] pattern. *)
Definition WHITESPACE : list char :=
[9; 10; 11; 12; 13; 28; 29; 30; 31; 32; 133; 160; 5760;
 8192; 8193; 8194; 8195; 8196; 8197; 8198; 8199; 8200; 8201; 8202;
 8232; 8233; 8239; 8287; 12288]%N.

Definition isspace (c : char) : bool := mem c WHITESPACE.

(** The line boundaries of [str.splitlines]. *)
Definition LINE_BREAKS : list char :=
[10; 11; 12; 13; 28; 29; 30; 133; 8232; 8233]%N.

Definition is_linebreak (c : char) : bool := mem c LINE_BREAKS.

(** [[a-z]] *)
Definition is_lower_az (c : char) : bool := ((97 <=? c) && (c <=? 122))%N.

(** The code points of the digit zero of every run of decimal digits
  (general category Nd, Unicode 14.0 as in CPython 3.11): each run
  holds the ten digits 0..9 in order.  [\d] matches exactly these
  characters and [int] reads them. *)
Definition DECIMAL_ZEROS : list char :=
[48; 1632; 1776; 1984; 2406; 2534; 2662; 2790; 2918; 3046; 3174; 3302;
 3430; 3558; 3664; 3792; 3872; 4160; 4240; 6112; 6160; 6470; 6608; 6784;
 6800; 6992; 7088; 7232; 7248; 42528; 43216; 43264; 43472; 43504; 43600;
 44016; 65296; 66720; 68912; 69734; 69872; 69942; 70096; 70384; 70736;
 70864; 71248; 71360; 71472; 71904; 72016; 72784; 73040; 73120; 92768;
 92864; 93008; 120782; 120792; 120802; 120812; 120822; 123200; 123632;
 125264; 130032]%N.

Fixpoint decimal_in (zeros : list char) (c : char) : option Z :=
match zeros with
| [] => None
| z :: zs =>
  if ((z <=? c) && (c <? z + 10))%N then Some (Z.of_N (c - z))
  else decimal_in zs c
end.

Definition decimal_value (c : char) : option Z := decimal_in DECIMAL_ZEROS c.

Definition is_digit (c : char) : bool :=
match decimal_value c with Some _ => true | None => false end.

(** ** [str] methods *)

Fixpoint startswith (p s : str) : bool :=
match p, s with
| [], _ => true
| _ :: _, [] => false
| x :: p', y :: s' => (x =? y)%N && startswith p' s'
end.

(** [sep.join(parts)] *)
Fixpoint join (sep : str) (parts : list str) : str :=
match parts with
| [] => []
| [p] => p
| p :: ps => p ++ sep ++ join sep ps
end.

Fixpoint lstrip_by (drop : char -> bool) (s : str) : str :=
match s with
| [] => []
| c :: s' => if drop c then lstrip_by drop s' else s
end.

Definition rstrip_by (drop : char -> bool) (s : str) : str :=
rev (lstrip_by drop (rev s)).

Definition strip_by (drop : char -> bool) (s : str) : str :=
rstrip_by drop (lstrip_by drop s).

(** [s.rstrip()], [s.strip()] and [s.strip(chars)] *)
Definition rstrip : str -> str := rstrip_by isspace.
Definition strip : str -> str := strip_by isspace.
Definition strip_chars (chars : str) : str -> str :=
strip_by (fun c => mem c chars).

(** [s.splitlines()]: the lines of [s] without their boundaries; CR LF is
  one boundary, and a boundary at the very end opens no further line. *)
Fixpoint splitlines (s : str) : list str :=
match s with
| [] => []
| c :: s' =>
  if is_linebreak c then
    [] :: match s' with
          | d :: s'' =>
            if ((c =? CR) && (d =? LF))%N then splitlines s''
            else splitlines s'
          | [] => []
          end
  else match splitlines s' with
       | [] => [[c]]
       | l :: ls => (c :: l) :: ls
       end
end.

(** [s.partition(sep)] for a separator that occurs: the text before
  and after the first occurrence of [sep]. *)
Fixpoint cut (sep s : str) : option (str * str) :=
if startswith sep s then Some ([], skipn (List.length sep) s)
else match s with
     | [] => None
     | c :: s' =>
       match cut sep s' with
       | Some (a, b) => Some (c :: a, b)
       | None => None
       end
     end.

(** [s.split(sep, maxsplit)], [sep] not empty. *)
Fixpoint split (sep : str) (maxsplit : nat) (s : str) : list str :=
match maxsplit with
| O => [s]
| S m =>
  match cut sep s with
  | None => [s]
  | Some (a, b) => a :: split sep m b
  end
end.

(** [s.replace(old, new)], [old] not empty: occurrences are replaced
  from the left and do not overlap; [skip] counts the characters of an
  occurrence still to be dropped. *)
Fixpoint replace_from (old new : str) (skip : nat) (s : str) : str :=
match s with
| [] => []
| c :: s' =>
  match skip with
  | S k => replace_from old new k s'
  | O =>
    if startswith old s
    then new ++ replace_from old new (List.length old - 1) s'
    else c :: replace_from old new 0 s'
  end
end.

Definition replace (old new s : str) : str := replace_from old new 0 s.

(** [pat in s] *)
Fixpoint occurs (pat s : str) : bool :=
startswith pat s ||
match s with
| [] => false
| _ :: s' => occurs pat s'
end.

(** ** Numbers *)

Fixpoint uint_digits (d : Decimal.uint) : str :=
match d with
| Decimal.Nil => []
| Decimal.D0 d' => 48%N :: uint_digits d'
| Decimal.D1 d' => 49%N :: uint_digits d'
| Decimal.D2 d' => 50%N :: uint_digits d'
| Decimal.D3 d' => 51%N :: uint_digits d'
| Decimal.D4 d' => 52%N :: uint_digits d'
| Decimal.D5 d' => 53%N :: uint_digits d'
| Decimal.D6 d' => 54%N :: uint_digits d'
| Decimal.D7 d' => 55%N :: uint_digits d'
| Decimal.D8 d' => 56%N :: uint_digits d'
| Decimal.D9 d' => 57%N :: uint_digits d'
end.

(** [str(n)] for an [int]. *)
Definition str_of_int (n : Z) : str :=
match Z.to_int n with
| Decimal.Pos d => uint_digits d
| Decimal.Neg d => 45%N :: uint_digits d
end.

(** The digits and single inner underscores of an [int] literal;
  [seen] tells that the previous character was a digit. *)
Fixpoint int_body (acc : Z) (seen : bool) (s : str) : option Z :=
match s with
| [] => if seen then Some acc else None
| c :: s' =>
  match decimal_value c with
  | Some d => int_body (10 * acc + d) true s'
  | None =>
    if (c =? 95)%N && seen then int_body acc false s' else None
  end
end.

(** [int(s)]: surrounding whitespace and one sign are allowed; [None]
  stands for ValueError.  (File names are at most 255 bytes long, so the
  interpreter's limit on the number of digits is never reached.) *)
Definition int (s : str) : option Z :=
match strip s with
| c :: s' =>
  if (c =? 45)%N then option_map Z.opp (int_body 0 false s')
  else if (c =? 43)%N then int_body 0 false s'
  else int_body 0 false (c :: s')
| [] => None
end.

(** [html.escape(s)] with [quote=True]. *)
Definition escape_char (c : char) : str :=
if (c =? 38)%N then u "&amp;"
else if (c =? 60)%N then u "&lt;"
else if (c =? 62)%N then u "&gt;"
else if (c =? 34)%N then u "&quot;"
else if (c =? 39)%N then u "&#x27;"
else [c].

Definition html_escape (s : str) : str := flat_map escape_char s.

End Py.

Import Py.

(** A literal of the source that holds double quotes, written here with
    apostrophes (none of these literals holds an apostrophe of its own). *)
Definition uq (s : string) : str :=
  map (fun c => if (c =? 39)%N then DQ else c) (u s).

(* ================================================================== *)
(** * Exceptions and the file system *)

Inductive exn : Type :=
| ValueError (msg : str)
| SystemExit (msg : str)
| IndexError
| FileNotFoundError
| FileExistsError
| IsADirectoryError
| NotADirectoryError
| UnicodeDecodeError.

Inductive result (A : Type) : Type :=
| Ok (a : A)
| Raise (e : exn).

Arguments Ok {A} a.
Arguments Raise {A} e.

Definition rbind {A B} (r : result A) (k : A -> result B) : result B :=
  match r with
  | Ok a => k a
  | Raise e => Raise e
  end.

(** A path is the list of its components below [ROOT], the directory
    that holds [scripts/], [kyushi-ronbun/] and [docs/]. *)
Definition path := list str.

(** What a path holds.  A [File] holds text: what [Path.read_text] with
    the encoding UTF-8 returns for it, its line ends already read as
    line feeds.  A [Binary] is a file whose bytes are not UTF-8 text. *)
Inductive node : Type :=
| Dir
| File (content : str)
| Binary.

(** The entries of the tree; their order is the order in which the
    operating system enumerates a directory. *)
Definition filesystem := list (path * node).

Fixpoint path_eqb (p q : path) : bool :=
  match p, q with
  | [], [] => true
  | a :: p', b :: q' => str_eqb a b && path_eqb p' q'
  | _, _ => false
  end.

(** [p / name] *)
Definition child (p : path) (name : str) : path := p ++ [name].
(** [p.name] and [p.parent] *)
Definition name_of (p : path) : str := last p [].
Definition parent (p : path) : path := removelast p.

Fixpoint fs_lookup (fs : filesystem) (p : path) : option node :=
  match p with
  | [] => Some Dir
  | _ =>
    match fs with
    | [] => None
    | (p', n) :: fs' => if path_eqb p' p then Some n else fs_lookup fs' p
    end
  end.

Fixpoint fs_set (fs : filesystem) (p : path) (n : node) : filesystem :=
  match fs with
  | [] => [(p, n)]
  | (p', n') :: fs' =>
    if path_eqb p' p then (p, n) :: fs' else (p', n') :: fs_set fs' p n
  end.

(** State and exceptions: a raised exception keeps the files written so
    far. *)
Definition M (A : Type) : Type := filesystem -> result A * filesystem.

Definition ret {A} (a : A) : M A := fun fs => (Ok a, fs).
Definition raise {A} (e : exn) : M A := fun fs => (Raise e, fs).
Definition bind {A B} (m : M A) (k : A -> M B) : M B :=
  fun fs =>
    match m fs with
    | (Ok a, fs') => k a fs'
    | (Raise e, fs') => (Raise e, fs')
    end.
Definition lift {A} (r : result A) : M A := fun fs => (r, fs).

Declare Scope py_scope.
Delimit Scope py_scope with py.
Notation "x <- m ;; k" := (bind m (fun x => k))
  (at level 61, m at next level, right associativity) : py_scope.
Notation "m ;; k" := (bind m (fun _ => k))
  (at level 61, right associativity) : py_scope.
Notation "x <~ r ;; k" := (rbind r (fun x => k))
  (at level 61, r at next level, right associativity) : py_scope.

(** [for x in xs: body x] *)
Fixpoint for_each {A} (xs : list A) (body : A -> M unit) : M unit :=
  match xs with
  | [] => ret tt
  | x :: xs' => bind (body x) (fun _ => for_each xs' body)
  end.

(** [p.exists()], [p.is_dir()] *)
Definition exists_ (p : path) : M bool :=
  fun fs => (Ok match fs_lookup fs p with Some _ => true | None => false end, fs).
Definition is_dir (p : path) : M bool :=
  fun fs => (Ok match fs_lookup fs p with Some Dir => true | _ => false end, fs).

(** [p.read_text(encoding="utf-8")] *)
Definition read_text (p : path) : M str :=
  fun fs =>
    match fs_lookup fs p with
    | Some (File c) => (Ok c, fs)
    | Some Binary => (Raise UnicodeDecodeError, fs)
    | Some Dir => (Raise IsADirectoryError, fs)
    | None => (Raise FileNotFoundError, fs)
    end.

(** [p.write_text(content, encoding="utf-8")] *)
Definition write_text (p : path) (content : str) : M unit :=
  fun fs =>
    match fs_lookup fs p with
    | Some Dir => (Raise IsADirectoryError, fs)
    | _ =>
      match fs_lookup fs (parent p) with
      | Some Dir => (Ok tt, fs_set fs p (File content))
      | Some _ => (Raise NotADirectoryError, fs)
      | None => (Raise FileNotFoundError, fs)
      end
    end.

(** [p.mkdir(exist_ok=True)] *)
Definition mkdir (p : path) : M unit :=
  fun fs =>
    match fs_lookup fs p with
    | Some Dir => (Ok tt, fs)
    | Some _ => (Raise FileExistsError, fs)
    | None =>
      match fs_lookup fs (parent p) with
      | Some Dir => (Ok tt, fs_set fs p Dir)
      | Some _ => (Raise NotADirectoryError, fs)
      | None => (Raise FileNotFoundError, fs)
      end
    end.

(** [os.mkdir] on the way to a directory to make: an ancestor that is a
    file refuses it. *)
Definition mkdir_ancestor (p : path) : M unit :=
  fun fs =>
    match fs_lookup fs p with
    | Some (File _) | Some Binary => (Raise NotADirectoryError, fs)
    | _ => mkdir p fs
    end.

(** [p.mkdir(parents=True, exist_ok=True)]: the missing ancestors are
    made from the top; [above] is the part of the path already known to
    be a directory. *)
Fixpoint mkdir_below (above : path) (names : list str) : M unit :=
  match names with
  | [] => ret tt
  | [n] => mkdir (child above n)
  | n :: names' =>
    bind (mkdir_ancestor (child above n))
         (fun _ => mkdir_below (child above n) names')
  end.

Definition mkdir_parents (p : path) : M unit := mkdir_below [] p.

Definition entries_of (fs : filesystem) (d : path) : list path :=
  map fst (filter (fun e => match fst e with
                            | [] => false
                            | _ => path_eqb (parent (fst e)) d
                            end) fs).

(** [d.iterdir()] *)
Definition iterdir (d : path) : M (list path) :=
  fun fs =>
    match fs_lookup fs d with
    | Some Dir => (Ok (entries_of fs d), fs)
    | Some _ => (Raise NotADirectoryError, fs)
    | None => (Raise FileNotFoundError, fs)
    end.

Definition endswith (suffix s : str) : bool := startswith (rev suffix) (rev s).

(** [fnmatch(name, "kyushi_*.txt")] *)
Definition glob_kyushi_txt (name : str) : bool :=
  startswith (u "kyushi_") name
  && endswith (u ".txt") name
  && (11 <=? List.length name)%nat.

(** [d.glob("kyushi_*.txt")]; nothing is yielded for what is not a
    directory. *)
Definition glob (d : path) : M (list path) :=
  fun fs =>
    match fs_lookup fs d with
    | Some Dir =>
      (Ok (filter (fun p => glob_kyushi_txt (name_of p)) (entries_of fs d)), fs)
    | _ => (Ok [], fs)
    end.

(** [d.get(k, default)] for a dictionary with [str] keys. *)
Fixpoint dict_get {V} (d : list (str * V)) (k : str) : option V :=
  match d with
  | [] => None
  | (k', v) :: d' => if str_eqb k' k then Some v else dict_get d' k
  end.

Definition dict_get_default {V} (d : list (str * V)) (k : str) (default : V) : V :=
  match dict_get d k with
  | Some v => v
  | None => default
  end.

(** [sorted]: a stable sort, written as an insertion sort; [ltb] is the
    [<] of the keys ([sorted] compares with [<] only). *)
Section StableSort.
Variable A : Type.
Variable ltb : A -> A -> bool.

Fixpoint insert (x : A) (l : list A) : list A :=
  match l with
  | [] => [x]
  | y :: l' => if ltb y x then y :: insert x l' else x :: l
  end.

Fixpoint stable_sort (l : list A) : list A :=
  match l with
  | [] => []
  | x :: l' => insert x (stable_sort l')
  end.
End StableSort.

(** [<] and [==] on tuples, a tuple of three being a pair whose second
    component is a pair: the first components that differ decide. *)
Definition pair_ltb {A B} (eqA ltA : A -> A -> bool) (ltB : B -> B -> bool)
           (x y : A * B) : bool :=
  if eqA (fst x) (fst y) then ltB (snd x) (snd y) else ltA (fst x) (fst y).

Definition pair_eqb {A B} (eqA : A -> A -> bool) (eqB : B -> B -> bool)
           (x y : A * B) : bool :=
  eqA (fst x) (fst y) && eqB (snd x) (snd y).

(** The distinct elements of [l], each at its first place: the keys of
    a dictionary, or the elements of a set, filled from [l]. *)
Fixpoint distinct {A} (eqb : A -> A -> bool) (l : list A) : list A :=
  match l with
  | [] => []
  | x :: l' => x :: filter (fun y => negb (eqb y x)) (distinct eqb l')
  end.

(** [str(n)] for an [int] with the limit of CPython on the length of
    the decimal text (4300 digits, the sign not counted). *)
Definition int_digits_count (n : Z) : N :=
  match Z.to_int n with
  | Decimal.Pos d => N.of_nat (List.length (uint_digits d))
  | Decimal.Neg d => N.of_nat (List.length (uint_digits d))
  end.

Definition int_str (n : Z) : result str :=
  if (4300 <? int_digits_count n)%N
  then Raise (ValueError (u "Exceeds the limit (4300 digits) for integer string conversion; use sys.set_int_max_str_digits() to increase the limit"))
  else Ok (str_of_int n).

(** What [yaml.safe_load] returns, as far as the generator looks at it.
    A [str] and an [int] are themselves; a mapping, a sequence and every
    other object carry what [str()] gives for them: the text, or the
    exception it raises. *)
#[local] Unset Elimination Schemes.
Inductive pyobj : Type :=
| PyDict (text : result str) (items : list (str * pyobj))
    (** a mapping; only its [str] keys can be looked up by the name of a
        field *)
| PyList (text : result str) (items : list pyobj)
| PyStr (s : str)
| PyInt (n : Z)
| PyOther (text : result str)
    (** [None], a [bool], a [float], a date *).

(** [str(o)] *)
Definition py_str (o : pyobj) : result str :=
  match o with
  | PyDict t _ => t
  | PyList t _ => t
  | PyStr s => Ok s
  | PyInt n => int_str n
  | PyOther t => t
  end.

#[local] Set Elimination Schemes.

(** A comprehension over results: the values in order, or the first
    exception raised. *)
Fixpoint collect {A} (rs : list (result A)) : result (list A) :=
  match rs with
  | [] => Ok []
  | r :: rs' => rbind r (fun a => rbind (collect rs') (fun l => Ok (a :: l)))
  end.

(** [yaml.safe_load]: the object read, or the exception raised. *)
Definition yaml_loader := str -> result pyobj.

(* ================================================================== *)
(** * The generator *)

Local Open Scope py_scope.

Definition SUBJECT_NAMES : list (str * str) := Eval cbv in
  [ (u "kenpo", u "憲法");
    (u "keiho", u "刑法");
    (u "keisoho", u "刑事訴訟法");
    (u "minsoho", u "民事訴訟法");
    (u "minpo", u "民法");
    (u "shoho", u "商法") ].

Definition ERA_NAMES : list (str * str) := Eval cbv in
  [ (u "s", u "昭和"); (u "h", u "平成") ].

Definition SUBJECT_ORDER : list str := Eval cbv in
  [ u "憲法"; u "民法"; u "商法"; u "刑法"; u "民事訴訟法"; u "刑事訴訟法" ].

Definition DATA_DIR : path := Eval cbv in [u "kyushi-ronbun"].
Definition DOCS_DIR : path := Eval cbv in [u "docs"].

Record Question : Type := {
  subject : str;
  subject_label : str;
  year : Z;
  era_code : str;
  qnum : Z;
  text : str;
  slug : str;
  source : str;
  tags : list str
}.

Definition set_tags (q : Question) (ts : list str) : Question :=
  {| subject := subject q; subject_label := subject_label q;
     year := year q; era_code := era_code q; qnum := qnum q;
     text := text q; slug := slug q; source := source q; tags := ts |}.

(** ** parse_filename *)

(** The groups of a match of the file name pattern. *)
Record filename_groups : Type := {
  g_subject : str;
  g_year : str;
  g_era : str;
  g_qnum : str
}.

(** A literal of the pattern: what follows it in [s]. *)
Definition expect (lit s : str) : option str :=
  if startswith lit s then Some (skipn (List.length lit) s) else None.

(** A greedy run [c+] or [c*] of one character class, and what follows
    it. *)
Fixpoint span (cl : char -> bool) (s : str) : str * str :=
  match s with
  | [] => ([], [])
  | c :: s' =>
    if cl c then let (a, b) := span cl s' in (c :: a, b) else ([], s)
  end.

(** [\d{n}] *)
Fixpoint digits_n (n : nat) (s : str) : option (str * str) :=
  match n with
  | O => Some ([], s)
  | S n' =>
    match s with
    | c :: s' =>
      if is_digit c then
        match digits_n n' s' with
        | Some (a, b) => Some (c :: a, b)
        | None => None
        end
      else None
    | [] => None
    end
  end.

(** [$] without MULTILINE: the end of the text, or just before a line
    feed that ends it. *)
Definition at_end (s : str) : bool :=
  match s with
  | [] => true
  | [c] => (c =? LF)%N
  | _ => false
  end.

Definition obind {A B} (o : option A) (k : A -> option B) : option B :=
  match o with
  | Some a => k a
  | None => None
  end.

(** [re.match(r"kyushi_(?P<subject>[a-z]+)_(?P<year>\d{4})_(?P<era>[sh]\d{2})_q(?P<qnum>\d+)\.txt$", name)].
    Every repetition of the pattern is followed by a character outside
    its class, so the greedy run is the only way to match. *)
Definition match_filename (name : str) : option filename_groups :=
  obind (expect (u "kyushi_") name) (fun r1 =>
  let (subj, r2) := span is_lower_az r1 in
  match subj with
  | [] => None
  | _ =>
    obind (expect (u "_") r2) (fun r3 =>
    obind (digits_n 4 r3) (fun yr =>
    obind (expect (u "_") (snd yr)) (fun r4 =>
    match r4 with
    | e :: r5 =>
      if ((e =? 115) || (e =? 104))%N then
        obind (digits_n 2 r5) (fun en =>
        obind (expect (u "_q") (snd en)) (fun r6 =>
        let (qn, r7) := span is_digit r6 in
        match qn with
        | [] => None
        | _ =>
          obind (expect (u ".txt") r7) (fun r8 =>
          if at_end r8
          then Some {| g_subject := subj; g_year := fst yr;
                       g_era := e :: fst en; g_qnum := qn |}
          else None)
        end))
      else None
    | [] => None
    end)))
  end).

(** [int(match.group(...))]: the group is a run of digits. *)
Definition int_or_raise (s : str) : result Z :=
  match int s with
  | Some n => Ok n
  | None => Raise (ValueError (u "invalid literal for int()"))
  end.

Definition parse_filename (p : path) : M Question :=
  match match_filename (name_of p) with
  | None =>
    raise (ValueError (u "Unexpected filename format: " ++ name_of p))
  | Some m =>
    let subject_code := g_subject m in
    let subject_label := dict_get_default SUBJECT_NAMES subject_code subject_code in
    year <- lift (int_or_raise (g_year m)) ;;
    let era_code := g_era m in
    qnum <- lift (int_or_raise (g_qnum m)) ;;
    let slug := str_of_int year ++ u "_" ++ era_code ++ u "_q"
                ++ str_of_int qnum ++ u ".md" in
    content <- read_text p ;;
    ret {| subject := subject_code;
           subject_label := subject_label;
           year := year;
           era_code := era_code;
           qnum := qnum;
           text := strip_chars [LF] content;
           slug := slug;
           source := u "kyushi-ronbun/" ++ subject_code ++ u "/" ++ name_of p;
           tags := [] |}
  end.

(** ** era_label *)

Definition era_label (code suffix : str) : result str :=
  match code with
  | [] => Raise IndexError
  | c :: rest =>
    let era := dict_get_default ERA_NAMES [c] [c] in
    number <~ int_or_raise rest ;;
    Ok (era ++ str_of_int number ++ suffix)
  end.

Definition ensure_empty_subject_dir (p : path) : M unit := mkdir_parents p.

(** ** format_blockquote *)

Definition quote_line (line : str) : str :=
  match strip line with
  | [] => u ">"
  | _ :: _ => u "> " ++ line
  end.

Definition format_blockquote (text : str) : str :=
  rstrip (join [LF] (map quote_line (splitlines text))).

(** ** read_existing_tags_and_memo *)

Definition DEFAULT_MEMO : str := Eval cbv in u "_ここにメモを書く_".
Definition FENCE : str := Eval cbv in u "---".
Definition MEMO_HEADING : str := Eval cbv in u "## メモ".

(** [\s*\n] at the start of [s], greedy with backtracking: what follows
    the match, if there is one. *)
Fixpoint spaces_then_newline (s : str) : option str :=
  match s with
  | [] => None
  | c :: s' =>
    if isspace c then
      match spaces_then_newline s' with
      | Some r => Some r
      | None => if (c =? LF)%N then Some s' else None
      end
    else None
  end.

(** The memo pattern tried at the start of [s]: the heading [## メモ],
    then [\s*\n], then group 1, which with [re.S] runs to the end of
    the text. *)
Definition memo_match_at (s : str) : option str :=
  obind (expect MEMO_HEADING s) spaces_then_newline.

(** [re.search] of the memo pattern in [content]: group 1 of the
    leftmost match. *)
Fixpoint memo_search (content : str) : option str :=
  match memo_match_at content with
  | Some g => Some g
  | None =>
    match content with
    | [] => None
    | _ :: rest => memo_search rest
    end
  end.

Section Generator.

Variable yaml_safe_load : yaml_loader.
(** [str.lower] *)
Variable lower : str -> str.
(** The style and script block of the home page, a fixed text. *)
Variable HOME_SCRIPT : str.

(** The [tags] the metadata block of a page gives. *)
Definition existing_tags (content : str) : list str :=
  if startswith FENCE content then
    match split FENCE 2 content with
    | _ :: block :: _ :: _ =>
      match yaml_safe_load block with
      | Ok (PyDict _ meta) =>
        match dict_get meta (u "tags") with
        | Some (PyList _ ts) =>
          match collect (map py_str ts) with
          | Ok tags => tags
          | Raise _ => []
          end
        | _ => []
        end
      | Ok _ => []
      | Raise _ => []
      end
    | _ => []
    end
  else [].

Definition existing_memo (content : str) : str :=
  match memo_search content with
  | Some g =>
    match rstrip g with
    | [] => DEFAULT_MEMO
    | memo_body => memo_body
    end
  | None => DEFAULT_MEMO
  end.

Definition read_existing_tags_and_memo (p : path) : M (list str * str) :=
  present <- exists_ p ;;
  if negb present then ret ([], DEFAULT_MEMO)
  else
    content <- read_text p ;;
    ret (existing_tags content, existing_memo content).

(** ** write_question_page *)

Definition page_title (q : Question) : result str :=
  era <~ era_label (era_code q) (u "年度") ;;
  Ok (era ++ u " 旧司法試験 論文式試験問題 " ++ subject_label q
      ++ u " 第" ++ str_of_int (qnum q) ++ u "問").

Definition frontmatter (title : str) (existing : list str) : list str :=
  [u "---"; u "title: " ++ title]
  ++ match existing with
     | [] => [u "tags: []"]
     | _ :: _ => [u "tags:"] ++ map (fun t => u "  - " ++ t) existing
     end
  ++ [u "---"].

Definition page_content (title blockquote : str) (existing : list str)
           (memo : str) : str :=
  join [LF]
    (frontmatter title existing
     ++ [ [];
          u "# " ++ title;
          [];
          u "## 問題";
          [];
          blockquote;
          [];
          u "## メモ";
          [];
          memo;
          [] ]).

(** The dictionary [q] is updated in place ([q["tags"] = ...]); the
    embedding returns the updated record. *)
Definition write_question_page (target : path) (q : Question) : M Question :=
  title <- lift (page_title q) ;;
  let blockquote := format_blockquote (text q) in
  tm <- read_existing_tags_and_memo target ;;
  let q' := set_tags q (fst tm) in
  write_text target (page_content title blockquote (fst tm) (snd tm)) ;;
  ret q'.

(** ** write_subject_index *)


Definition subject_index_row (by_year : list Question) (yr : Z) : result str :=
  match by_year with
  | [] => Raise IndexError
  | first :: _ =>
    era <~ era_label (era_code first) (u "年度") ;;
    let q_links :=
      join (u " / ")
        (map (fun q => u "[第" ++ str_of_int (qnum q) ++ u "問]("
                            ++ slug q ++ u ")")
             (stable_sort (fun a b => (qnum a <? qnum b)%Z) by_year)) in
    Ok (u "| " ++ era ++ u "（" ++ str_of_int yr ++ u "年度） | "
        ++ q_links ++ u " |")
  end.

Definition write_subject_index (subject_dir : path) (subject_code : str)
           (questions : list Question) : M unit :=
  let subject_label := dict_get_default SUBJECT_NAMES subject_code subject_code in
  let by_year := fun yr => filter (fun q => (year q =? yr)%Z) questions in
  let years := stable_sort (fun a b => (b <? a)%Z) (distinct Z.eqb (map year questions)) in
  rows <- lift (collect (map (fun yr => subject_index_row (by_year yr) yr) years)) ;;
  let lines := [ u "# " ++ subject_label; []; u "| 年度 | 問題 |"; u "| --- | --- |" ]
               ++ rows in
  write_text (child subject_dir (u "index.md")) (rstrip (join [LF] lines) ++ [LF]).

(** ** write_home *)

(** [SUBJECT_ORDER.index(label)] *)
Fixpoint index_of (l : list str) (x : str) : option nat :=
  match l with
  | [] => None
  | y :: l' =>
    if str_eqb y x then Some O
    else match index_of l' x with
         | Some i => Some (S i)
         | None => None
         end
  end.

Definition subject_key (label : str) : nat * str :=
  match index_of SUBJECT_ORDER label with
  | Some i => (i, [])
  | None => (List.length SUBJECT_ORDER, label)
  end.

Definition subject_key_ltb : nat * str -> nat * str -> bool :=
  pair_ltb Nat.eqb Nat.ltb str_ltb.

Definition subject_key_eqb : nat * str -> nat * str -> bool :=
  pair_eqb Nat.eqb str_eqb.

(** The sort key of a question on the home page, the tuple
    [(subject_key(label), -year, qnum)]. *)
Definition home_key (q : Question) : (nat * str) * (Z * Z) :=
  (subject_key (subject_label q), ((- year q)%Z, qnum q)).

Definition home_key_ltb
  : (nat * str) * (Z * Z) -> (nat * str) * (Z * Z) -> bool :=
  pair_ltb subject_key_eqb subject_key_ltb (pair_ltb Z.eqb Z.ltb Z.ltb).

Definition sorted_questions (all_questions : list Question) : list Question :=
  stable_sort (fun a b => home_key_ltb (home_key a) (home_key b)) all_questions.

(** [year_labels]: the label of each year, from the first question of
    that year. *)
Fixpoint year_labels (all_questions : list Question) (seen : list Z)
  : result (list (Z * str)) :=
  match all_questions with
  | [] => Ok []
  | q :: rest =>
    if existsb (Z.eqb (year q)) seen then year_labels rest seen
    else
      label <~ era_label (era_code q) (u "年度") ;;
      more <~ year_labels rest (year q :: seen) ;;
      Ok ((year q, label) :: more)
  end.

Definition home_header (subjects : list str) (labels : list (Z * str))
  : list str :=
  let years := stable_sort (fun a b => (fst b <? fst a)%Z) labels in
  [ u "# 旧司法試験 論文式試験問題";
    [];
    u "科目・年度・問題番号で絞り込み、列ヘッダでソートできます。キーワードは空白区切りでAND検索です。";
    [];
    uq "<div class='filters'>";
    uq "  <label>科目 <select id='filter-subject' autocomplete='off'><option value='' selected>すべて</option>"
    ++ List.concat (map (fun s => uq "<option value='" ++ s ++ uq "'>" ++ s
                             ++ u "</option>") subjects)
    ++ u "</select></label>";
    uq "  <label>年度 <select id='filter-year' autocomplete='off'><option value=''>すべて</option>"
    ++ List.concat (map (fun yl => uq "<option value='" ++ str_of_int (fst yl)
                              ++ uq "'>" ++ snd yl ++ u "（"
                              ++ str_of_int (fst yl) ++ u "年度）</option>")
                   years)
    ++ u "</select></label>";
    uq "  <label>問題 <select id='filter-q' autocomplete='off'><option value=''>すべて</option><option value='1'>第1問</option><option value='2'>第2問</option><option value='3'>第3問</option><option value='4'>第4問</option></select></label>";
    uq "  <label>検索 <input id='filter-text' autocomplete='off' type='search' placeholder='例: 共同正犯 共謀 240条' aria-label='キーワードで絞り込み' class='md-input'></label>";
    uq "  <button id='clear-filters' type='button' class='clear-btn'>条件をクリア</button>";
    u "</div>";
    uq "<div id='results-count' class='results-count'></div>";
    [];
    uq "<table id='questions'>";
    u "  <thead>";
    uq "    <tr><th>科目</th><th data-sort='year'>年度</th><th data-sort='q'>問題</th><th>概要</th><th>タグ</th></tr>";
    u "  </thead>";
    u "  <tbody>" ].

Definition flatten_newlines (s : str) : str :=
  replace [LF] (u " ") s.

Definition home_row (q : Question) : result str :=
  era <~ era_label (era_code q) (u "年度") ;;
  let search_text :=
    lower (join (u " ")
             [ subject_label q;
               era;
               u "第" ++ str_of_int (qnum q) ++ u "問";
               str_of_int (year q);
               flatten_newlines (text q);
               join (u " ") (tags q) ]) in
  let snippet_text := flatten_newlines (text q) in
  let snippet_text :=
    if (70 <? List.length snippet_text)%nat
    then firstn 70 snippet_text ++ u "…"
    else snippet_text in
  let snippet_html := html_escape snippet_text in
  let tags_list := tags q in
  let tags_html :=
    match tags_list with
    | [] => u "—"
    | _ :: _ =>
      join (u " ")
        (map (fun t => uq "<button class='tag-link' type='button' data-tag='"
                       ++ html_escape t ++ uq "'>" ++ html_escape t
                       ++ u "</button>") tags_list)
    end in
  Ok (uq "    <tr data-search='" ++ html_escape search_text ++ uq "' "
      ++ uq "data-subject='" ++ subject_label q ++ uq "' "
      ++ uq "data-year='" ++ str_of_int (year q) ++ uq "' "
      ++ uq "data-era='" ++ era ++ uq "' "
      ++ uq "data-q='" ++ str_of_int (qnum q) ++ uq "'>"
      ++ u "<td>" ++ subject_label q ++ u "</td>"
      ++ u "<td>" ++ era ++ u "（" ++ str_of_int (year q) ++ u "年度）</td>"
      ++ uq "<td><a class='problem-link' href='./" ++ subject q ++ u "/"
      ++ replace (u ".md") [] (slug q) ++ uq "/'>第" ++ str_of_int (qnum q)
      ++ u "問</a></td>"
      ++ uq "<td class='snippet-cell' data-snippet='" ++ snippet_html
      ++ uq "'>" ++ snippet_html ++ u "</td>"
      ++ uq "<td class='tags-cell' data-tags='"
      ++ html_escape (join (u "|||") tags_list) ++ uq "'>" ++ tags_html
      ++ u "</td>"
      ++ u "</tr>").

Definition home_footer : list str :=
  [ u "  </tbody>"; u "</table>"; []; HOME_SCRIPT; [] ].

(** The labels are sorted out of a set; their keys are distinct, so the
    order in which the set yields them does not show in the result. *)
Definition home_content (all_questions : list Question) : result str :=
  let subjects :=
    stable_sort (fun a b => subject_key_ltb (subject_key a) (subject_key b))
                (distinct str_eqb (map subject_label all_questions)) in
  labels <~ year_labels all_questions [] ;;
  let header := home_header subjects labels in
  rows <~ collect (map home_row (sorted_questions all_questions)) ;;
  Ok (join [LF] (header ++ rows ++ home_footer)).

Definition write_home (all_questions : list Question) : M unit :=
  content <- lift (home_content all_questions) ;;
  write_text (child DOCS_DIR (u "index.md")) content.

(** ** main *)

(** The body of the inner loop: one text file of a subject. *)
Definition process_file (output_dir : path) (txt_file : path)
           (all_questions : list Question) : M (list Question) :=
  question <- parse_filename txt_file ;;
  question' <- write_question_page (child output_dir (slug question)) question ;;
  ret (all_questions ++ [question']).

Fixpoint process_files (output_dir : path) (txt_files : list path)
         (all_questions : list Question) : M (list Question) :=
  match txt_files with
  | [] => ret all_questions
  | f :: rest =>
    all_questions' <- process_file output_dir f all_questions ;;
    process_files output_dir rest all_questions'
  end.

(** The body of the outer loop: one entry of the dataset directory. *)
Definition process_subject (subject_dir : path) (all_questions : list Question)
  : M (list Question) :=
  d <- is_dir subject_dir ;;
  if negb d then ret all_questions
  else
    let subject_code := name_of subject_dir in
    let output_dir := child DOCS_DIR subject_code in
    ensure_empty_subject_dir output_dir ;;
    txt_files <- glob subject_dir ;;
    process_files output_dir txt_files all_questions.

Fixpoint process_subjects (subject_dirs : list path)
         (all_questions : list Question) : M (list Question) :=
  match subject_dirs with
  | [] => ret all_questions
  | d :: rest =>
    all_questions' <- process_subject d all_questions ;;
    process_subjects rest all_questions'
  end.

Definition main : M unit :=
  present <- exists_ DATA_DIR ;;
  if negb present
  then raise (SystemExit (u "Dataset directory kyushi-ronbun not found."))
  else
    mkdir DOCS_DIR ;;
    subject_dirs <- iterdir DATA_DIR ;;
    all_questions <- process_subjects subject_dirs [] ;;
    write_home all_questions.

End Generator.

(* ================================================================== *)
(** * The sorting script of the home page

    The click handler of the column headers, from the script block that
    [write_home] appends (the part from [const headers] to the end of
    [headers.forEach]). *)

Module HomeScript.

(** The values of [sortState.key]. *)
Inductive sort_key : Type := KeySubject | KeyYear | KeyQ.
Inductive direction : Type := Asc | Desc.

Record sort_state : Type := { key : sort_key; dir : direction }.

(** A [tr] of the table body: the element itself ([node]) and what
    [Number] reads from its [data-year] and [data-q] attributes, which
    the generator writes as decimal integers ([Number] is exact on
    them below 2^53). *)
Record tr : Type := { node : nat; data_year : Z; data_q : Z }.

(** The headers that carry [data-sort]: the year and the question
    columns. *)
Inductive th : Type := ThYear | ThQ.

Definition data_sort (h : th) : sort_key :=
  match h with
  | ThYear => KeyYear
  | ThQ => KeyQ
  end.

(** The page: the array [rows] taken once when the script starts, the
    children of [tbody] in document order, and [sortState]. *)
Record document : Type := {
  rows : list tr;
  tbody : list tr;
  sortState : sort_state
}.

Definition loaded (trs : list tr) : document :=
  {| rows := trs; tbody := trs;
     sortState := {| key := KeySubject; dir := Asc |} |}.

Definition key_eqb (a b : sort_key) : bool :=
  match a, b with
  | KeySubject, KeySubject | KeyYear, KeyYear | KeyQ, KeyQ => true
  | _, _ => false
  end.

(** [compare(a, b, key)] for the key of a header; the last branch of
    the script, for any other key, is reached by no header. *)
Definition compare (a b : tr) (h : th) : Z :=
  match h with
  | ThYear => (data_year a - data_year b)%Z
  | ThQ => (data_q a - data_q b)%Z
  end.

(** [Array.prototype.sort] with a comparator: a stable sort. *)
Definition js_sort (cmp : tr -> tr -> Z) (l : list tr) : list tr :=
  stable_sort (fun a b => (cmp a b <? 0)%Z) l.

(** [tbody.appendChild(row)]: the row moves to the end. *)
Definition appendChild (children : list tr) (row : tr) : list tr :=
  filter (fun r => negb (node r =? node row)%nat) children ++ [row].

(** The listener of a click on the header [h]. *)
Definition click (h : th) (d : document) : document :=
  let k := data_sort h in
  let dir' :=
    if key_eqb (key (sortState d)) k
       && match dir (sortState d) with Asc => true | Desc => false end
    then Desc else Asc in
  let sorted :=
    js_sort (fun a b =>
               let base := compare a b h in
               match dir' with Asc => base | Desc => (- base)%Z end)
            (rows d) in
  {| rows := rows d;
     tbody := fold_left appendChild sorted (tbody d);
     sortState := {| key := k; dir := dir' |} |}.

(** [n] clicks in a row on the same header. *)
Fixpoint clicks (n : nat) (h : th) (d : document) : document :=
  match n with
  | O => d
  | S n' => click h (clicks n' h d)
  end.

(** The value a header sorts by. *)
Definition sort_value (h : th) (r : tr) : Z :=
  match h with
  | ThYear => data_year r
  | ThQ => data_q r
  end.

(** The page is as the script keeps it: the rows are distinct elements
    and the table body holds rows only. *)
Definition well_formed (d : document) : Prop :=
  NoDup (map node (rows d))
  /\ forall r, In r (tbody d) -> In (node r) (map node (rows d)).

(** Three rows, as the generator orders them: year descending, then
    question ascending. *)
Definition example_rows : list tr :=
  [ {| node := 0; data_year := 1990; data_q := 1 |};
    {| node := 1; data_year := 1985; data_q := 1 |};
    {| node := 2; data_year := 1985; data_q := 2 |} ].

End HomeScript.

(* ================================================================== *)
(** * The statements of the description *)

(** The number a run of decimal digits denotes. *)
Definition decimal_number (ds : str) : Z :=
  fold_left (fun acc c => match decimal_value c with
                          | Some d => (10 * acc + d)%Z
                          | None => acc
                          end) ds 0%Z.

Definition all_digits (ds : str) : Prop := Forall (fun c => is_digit c = true) ds.

(** The name pattern of the description,
    [kyushi_<subject>_<year4>_<era1><num2>_q<num>.txt]: a subject code in
    lower-case letters, a year of four digits, the letter of the era
    ([s] or [h]) with two digits, and the digits of the question
    number. *)
Record name_parts : Type := {
  np_subject : str;
  np_year : str;
  np_era : char;
  np_num2 : str;
  np_num : str
}.

Definition name_from (x : name_parts) : str :=
  u "kyushi_" ++ np_subject x ++ u "_" ++ np_year x ++ u "_"
  ++ [np_era x] ++ np_num2 x ++ u "_q" ++ np_num x ++ u ".txt".

Definition well_formed_parts (x : name_parts) : Prop :=
  np_subject x <> []
  /\ Forall (fun c => is_lower_az c = true) (np_subject x)
  /\ List.length (np_year x) = 4%nat /\ all_digits (np_year x)
  /\ (np_era x = 115%N \/ np_era x = 104%N)
  /\ List.length (np_num2 x) = 2%nat /\ all_digits (np_num2 x)
  /\ np_num x <> [] /\ all_digits (np_num x).

Definition matches_pattern (name : str) : Prop :=
  exists x, well_formed_parts x /\ name = name_from x.

(** The text holds a character that is not whitespace. *)
Definition has_ink (s : str) : bool := existsb (fun c => negb (isspace c)) s.



(** An equality test and a strict total order. *)
Record strict_total {A} (eqb ltb : A -> A -> bool) : Prop := {
  st_eq : forall a b, eqb a b = true <-> a = b;
  st_irrefl : forall a, ltb a a = false;
  st_trans : forall a b c, ltb a b = true -> ltb b c = true -> ltb a c = true;
  st_total : forall a b, ltb a b = false -> ltb b a = false -> a = b
}.




(** The metadata block of a page as the description words it: the
    text between the fence that opens the page and the next fence. *)
Definition metadata_block (content : str) : option str :=
  if startswith FENCE content then
    match split FENCE 2 content with
    | [_; block; _] => Some block
    | _ => None
    end
  else None.

(** The [tags] field of the metadata, when it is there and is a
    sequence. *)
Definition tags_field (meta : pyobj) : option (list pyobj) :=
  match meta with
  | PyDict _ items =>
    match dict_get items (u "tags") with
    | Some (PyList _ ts) => Some ts
    | _ => None
    end
  | _ => None
  end.

(** What [str()] does on an entry of a sequence, said on the entry
    itself: a [str] reads as itself, an [int] of at most 4300 digits as
    its decimal text, another object as the text it carries; an [int] of
    more digits and an object that carries an exception do not read. *)
Definition reads_as (o : pyobj) (s : str) : Prop :=
  match o with
  | PyStr s' => s' = s
  | PyInt n => (int_digits_count n <= 4300)%N /\ str_of_int n = s
  | PyDict r _ => r = Ok s
  | PyList r _ => r = Ok s
  | PyOther r => r = Ok s
  end.

Definition unreadable (o : pyobj) : Prop :=
  match o with
  | PyStr _ => False
  | PyInt n => (4300 < int_digits_count n)%N
  | PyDict r _ => exists e, r = Raise e
  | PyList r _ => exists e, r = Raise e
  | PyOther r => exists e, r = Raise e
  end.

(** The tags a sequence gives: the text of every entry, or none when
    [str()] raises on an entry. *)
Definition tags_text (ts : list pyobj) : list str :=
  match collect (map py_str ts) with
  | Ok tags => tags
  | Raise _ => []
  end.

(** The metadata block of a page said without the functions of the
    generator: the page is the fence, [block], the fence and [rest], and
    no fence starts in the page after the opening one before the fence
    that ends [block]. *)
Definition block_of (content block rest : str) : Prop :=
  content = FENCE ++ block ++ FENCE ++ rest
  /\ forall k, (k < List.length block)%nat ->
               startswith FENCE (skipn k (block ++ FENCE ++ rest)) = false.

(** A page without a metadata block: it does not begin with the fence,
    or no fence follows the opening one. *)
Definition no_block (content : str) : Prop :=
  startswith FENCE content = false
  \/ forall k, startswith FENCE (skipn k (skipn 3 content)) = false.

(** The layout of a generated page: the lines of the tags, the text
    between the two fences, and the text before the memo heading. *)
Definition tag_lines (existing : list str) : str :=
  match existing with
  | [] => u "tags: []" ++ [LF]
  | _ :: _ => u "tags:" ++ [LF]
              ++ List.concat (map (fun t => u "  - " ++ t ++ [LF]) existing)
  end.

Definition metadata_text (title : str) (existing : list str) : str :=
  [LF] ++ u "title: " ++ title ++ [LF] ++ tag_lines existing.

Definition page_head (title blockquote : str) (existing : list str) : str :=
  FENCE ++ metadata_text title existing ++ FENCE
  ++ [LF; LF] ++ u "# " ++ title ++ [LF; LF] ++ u "## 問題" ++ [LF; LF]
  ++ blockquote ++ [LF; LF].

(** A loader for the layout the generator writes, each entry of the
    list read as plain text: the instance of [yaml.safe_load] the
    examples run with. *)
Definition plain_entries (lines : list str) : list pyobj :=
  flat_map (fun l => if startswith (u "  - ") l
                     then [PyStr (skipn 4 l)] else []) lines.

Definition plain_loader : yaml_loader :=
  fun block =>
    let lines := splitlines block in
    if existsb (str_eqb (u "tags: []")) lines
    then Ok (PyDict (Ok []) [(u "tags", PyList (Ok []) [])])
    else if existsb (str_eqb (u "tags:")) lines
    then Ok (PyDict (Ok []) [(u "tags", PyList (Ok []) (plain_entries lines))])
    else Ok (PyDict (Ok []) []).

(** The same page cut after the title heading: the metadata and the
    title, then the question and the memo. *)
Definition page_prefix (title : str) (existing : list str) : str :=
  FENCE ++ metadata_text title existing ++ FENCE
  ++ [LF; LF] ++ u "# " ++ title.

Definition page_tail (blockquote memo : str) : str :=
  [LF; LF] ++ u "## 問題" ++ [LF; LF] ++ blockquote ++ [LF; LF]
  ++ MEMO_HEADING ++ [LF; LF] ++ memo ++ [LF].

(** ** The example of the description *)

Definition example_name : str := Eval cbv in u "kyushi_kenpo_1985_s60_q1.txt".

Definition example_parts : name_parts :=
  {| np_subject := u "kenpo"; np_year := u "1985"; np_era := 115%N;
     np_num2 := u "60"; np_num := u "1" |}.

Definition example_title : str := Eval cbv in
  u "昭和60年度 旧司法試験 論文式試験問題 憲法 第1問".

Definition example_question (text : str) : Question :=
  {| subject := u "kenpo"; subject_label := u "憲法"; year := 1985;
     era_code := u "s60"; qnum := 1; text := text;
     slug := u "1985_s60_q1.md";
     source := u "kyushi-ronbun/kenpo/kyushi_kenpo_1985_s60_q1.txt";
     tags := [] |}.

Definition example_output_dir : path := Eval cbv in [u "docs"; u "kenpo"].
Definition example_target : path := Eval cbv in
  [u "docs"; u "kenpo"; u "1985_s60_q1.md"].

(** An output tree that holds one page. *)
Definition docs_with (page : str) : filesystem :=
  [ (DOCS_DIR, Dir); (example_output_dir, Dir); (example_target, File page) ].

(** A dataset with the subject [kenpo] and the given files (name and
    text), and no output yet. *)
Definition dataset (files : list (str * str)) : filesystem :=
  (DATA_DIR, Dir) :: (child DATA_DIR (u "kenpo"), Dir)
  :: map (fun f => (child (child DATA_DIR (u "kenpo")) (fst f), File (snd f)))
         files.

(** ** Further statements about the generator *)

(** [p] lies in the tree of [d]. *)
Definition path_under (d p : path) : Prop := exists rest, p = d ++ rest.

(** Two file systems that agree outside the tree of [d]: on what every
    path outside holds, and on the listing of every directory outside
    (other than the directory that holds [d] itself). *)
Definition outside_same (d : path) (fs fs' : filesystem) : Prop :=
  (forall p, ~ path_under d p -> fs_lookup fs' p = fs_lookup fs p)
  /\ (forall e, ~ path_under d e -> e <> parent d ->
                entries_of fs' e = entries_of fs e).

(** A computation that leaves everything outside the tree of [d] as it
    was, whether it returns or raises. *)
Definition keeps_outside (d : path) {A} (m : M A) : Prop :=
  forall fs, outside_same d fs (snd (m fs)).

(** The years of the rows of a subject index, in the order of the rows
    (the loop variable [year] of [write_subject_index]). *)
Definition index_years (questions : list Question) : list Z :=
  stable_sort (fun a b => (b <? a)%Z) (distinct Z.eqb (map year questions)).

(** The questions behind the links of the row of one year, in the order
    of the links. *)
Definition index_row_questions (questions : list Question) (yr : Z)
  : list Question :=
  stable_sort (fun a b => (qnum a <? qnum b)%Z)
              (filter (fun q => (year q =? yr)%Z) questions).

(** A link of a row of a subject index. *)
Definition index_link (q : Question) : str :=
  u "[第" ++ str_of_int (qnum q) ++ u "問](" ++ slug q ++ u ")".

(** The lines a subject index starts with. *)
Definition index_heading (subject_code : str) : list str :=
  [ u "# " ++ dict_get_default SUBJECT_NAMES subject_code subject_code;
    []; u "| 年度 | 問題 |"; u "| --- | --- |" ].

(** The file of the example in its dataset, the text between two line
    feeds. *)
Definition example_file : path :=
  child (child DATA_DIR (u "kenpo")) example_name.

Definition example_dataset : filesystem :=
  dataset [(example_name, [LF] ++ u "問題文" ++ [LF])].

(** Nothing of [fs] is missing from [fs']: what was a directory is a
    directory, what was a file is a file. *)
Definition kept (fs fs' : filesystem) : Prop :=
  forall p,
    (fs_lookup fs p = Some Dir -> fs_lookup fs' p = Some Dir)
    /\ (forall c, fs_lookup fs p = Some (File c) ->
                  exists c', fs_lookup fs' p = Some (File c'))
    /\ (fs_lookup fs p = Some Binary ->
        fs_lookup fs' p = Some Binary
        \/ exists c', fs_lookup fs' p = Some (File c')).

Definition deletes_nothing {A} (m : M A) : Prop :=
  forall fs, kept fs (snd (m fs)).


(** An output tree whose one page is a file that is not UTF-8 text. *)
Definition binary_docs : filesystem :=
  [ (DOCS_DIR, Dir); (example_output_dir, Dir); (example_target, Binary) ].

(** A page whose second tag is a hexadecimal literal of 3573 digits, an
    integer of more than 4300 decimal digits, and a loader that reads
    its block as [yaml.safe_load] does. *)
Definition LONG_INT : Z := (16 ^ 3572)%Z.

Definition long_int_page : str :=
  u "---" ++ [LF] ++ u "tags:" ++ [LF] ++ u "  - 憲法" ++ [LF]
  ++ u "  - 0x1" ++ repeat 48%N 3572 ++ [LF] ++ u "---" ++ [LF].

Definition INT_LIMIT : exn :=
  ValueError (u "Exceeds the limit (4300 digits) for integer string conversion; use sys.set_int_max_str_digits() to increase the limit").

Definition long_int_loader : yaml_loader :=
  fun _ =>
    Ok (PyDict (Raise INT_LIMIT)
               [(u "tags",
                 PyList (Raise INT_LIMIT) [PyStr (u "憲法"); PyInt LONG_INT])]).

(** A page with one tag, written by hand. *)
Definition one_tag_block : str :=
  [LF] ++ u "tags:" ++ [LF] ++ u "  - 刑法" ++ [LF].

Definition one_tag_page : str := FENCE ++ one_tag_block ++ FENCE ++ [LF].










(** ** The tag buttons of the home page

    The listener [attachTagHandlers] puts on every tag button of the
    table: a click adds the tag of the button to the search box.  The
    texts of the script are sequences of UTF-16 code units. *)
Module TagScript.

Section Handler.

(** The class [\s] of the engine that runs the script; [trim] removes
    the same characters. *)
Variable js_space : char -> bool.

(** [s.trim()] *)
Definition trim (s : str) : str := strip_by js_space s.

(** [s.split(/\s+/)]: the pieces between the runs of [\s]; [cur] is the
    piece being read, [in_gap] tells that the last character read was
    one of a run. *)
Fixpoint split_spaces (cur : str) (in_gap : bool) (s : str) : list str :=
  match s with
  | [] => [cur]
  | c :: s' =>
    if js_space c then
      if in_gap then split_spaces [] true s'
      else cur :: split_spaces [] true s'
    else split_spaces (cur ++ [c]) false s'
  end.

(** [Boolean(s)] for a string. *)
Definition truthy (s : str) : bool :=
  match s with
  | [] => false
  | _ :: _ => true
  end.

(** [(text.value || '').trim().split(/\s+/).filter(Boolean)] *)
Definition tokens_of (value : str) : list str :=
  filter truthy (split_spaces [] false (trim value)).

(** The listener of a button with the given [data-tag] and text, run on
    the value of the search box: the value it leaves in the box. *)
Definition click_tag (data_tag text_content value : str) : str :=
  let tag := if truthy data_tag then data_tag else trim text_content in
  if negb (truthy tag) then value
  else
    let tokens := tokens_of value in
    let next := distinct str_eqb (tokens ++ [tag]) in
    join (u " ") next.

(** A token of the search box: not empty, no character of the class. *)
Definition token (t : str) : Prop :=
  t <> [] /\ Forall (fun c => js_space c = false) t.

End Handler.

(** The white space and line terminators of ECMAScript. *)
Definition JS_SPACE : list char :=
  [ 9; 10; 11; 12; 13; 32; 160; 5760;
    8192; 8193; 8194; 8195; 8196; 8197; 8198; 8199; 8200; 8201; 8202;
    8232; 8233; 8239; 8287; 12288; 65279 ]%N.

Definition es_space (c : char) : bool := mem c JS_SPACE.

End TagScript.

(** The ASCII digits [0] to [9]. *)
Definition is_ascii_digit (c : char) : bool := ((48 <=? c) && (c <=? 57))%N.

(* ================================================================== *)
(** * Facts about text *)

Lemma str_eqb_refl (a : str) : str_eqb a a = true.
Proof.
  induction a as [|x a IH]; simpl; [reflexivity|].
  now rewrite N.eqb_refl.
Qed.

Lemma str_eqb_eq (a b : str) : str_eqb a b = true <-> a = b.
Proof.
  split.
  - revert b; induction a as [|x a IH]; intros [|y b] H; simpl in H;
      try discriminate; [reflexivity|].
    apply andb_true_iff in H as [Hx Hr].
    apply N.eqb_eq in Hx. apply IH in Hr. now subst.
  - intros ->. apply str_eqb_refl.
Qed.

Lemma str_eqb_neq (a b : str) : str_eqb a b = false <-> a <> b.
Proof.
  split.
  - intros H E. apply str_eqb_eq in E. congruence.
  - intros H. destruct (str_eqb a b) eqn:E; [|reflexivity].
    apply str_eqb_eq in E. contradiction.
Qed.

Lemma path_eqb_refl (p : path) : path_eqb p p = true.
Proof.
  induction p as [|a p IH]; simpl; [reflexivity|].
  now rewrite str_eqb_refl.
Qed.

Lemma path_eqb_eq (p q : path) : path_eqb p q = true <-> p = q.
Proof.
  split.
  - revert q; induction p as [|a p IH]; intros [|b q] H; simpl in H;
      try discriminate; [reflexivity|].
    apply andb_true_iff in H as [Ha Hr].
    apply str_eqb_eq in Ha. apply IH in Hr. now subst.
  - intros ->. apply path_eqb_refl.
Qed.

Lemma startswith_app (p s : str) : startswith p (p ++ s) = true.
Proof.
  induction p as [|x p IH]; simpl; [reflexivity|].
  now rewrite N.eqb_refl.
Qed.

Lemma skipn_length_app (p s : str) : skipn (List.length p) (p ++ s) = s.
Proof.
  induction p as [|x p IH]; simpl; [reflexivity|exact IH].
Qed.

Lemma expect_app (lit s : str) : expect lit (lit ++ s) = Some s.
Proof.
  unfold expect. now rewrite startswith_app, skipn_length_app.
Qed.

(** A match of [p] that starts inside [x] and runs past its end is made
    of characters of [p] only. *)
Lemma startswith_app_inv (p x y : str) :
  startswith p (x ++ y) = true ->
  startswith p x = true \/ Forall (fun c => mem c p = true) x.
Proof.
  revert x; induction p as [|a p IH]; intros x H; [now left|].
  destruct x as [|c x]; [right; constructor|].
  simpl in H. apply andb_true_iff in H as [Hc Hr].
  apply N.eqb_eq in Hc; subst c.
  destruct (IH _ Hr) as [Hs|Hf].
  - left. simpl. now rewrite N.eqb_refl.
  - right. constructor.
    + unfold mem. simpl. now rewrite N.eqb_refl.
    + eapply Forall_impl; [|exact Hf].
      intros c Hc. unfold mem in *. simpl. rewrite Hc. apply orb_true_r.
Qed.

(** ** Stripping *)

Lemma rstrip_by_snoc (drop : char -> bool) (s : str) (c : char) :
  rstrip_by drop (s ++ [c])
  = if drop c then rstrip_by drop s else s ++ [c].
Proof.
  unfold rstrip_by. rewrite rev_app_distr. simpl.
  destruct (drop c); [reflexivity|].
  simpl. now rewrite rev_involutive.
Qed.

Lemma has_ink_app (a b : str) : has_ink (a ++ b) = has_ink a || has_ink b.
Proof. apply existsb_app. Qed.


Lemma rstrip_has_ink (s : str) : has_ink (rstrip s) = has_ink s.
Proof.
  induction s as [|c s IH] using rev_ind; [reflexivity|].
  unfold rstrip in *. rewrite rstrip_by_snoc.
  destruct (isspace c) eqn:Ec; [|reflexivity].
  rewrite IH, has_ink_app. simpl. rewrite Ec. simpl.
  now rewrite orb_false_r.
Qed.

Lemma rstrip_no_ink (s : str) : has_ink s = false -> rstrip s = [].
Proof.
  induction s as [|c s IH] using rev_ind; intros H; [reflexivity|].
  unfold rstrip in *. rewrite rstrip_by_snoc.
  rewrite has_ink_app in H. apply orb_false_iff in H as [Hs Hc].
  simpl in Hc. rewrite orb_false_r in Hc. apply negb_false_iff in Hc.
  rewrite Hc. now apply IH.
Qed.







Lemma join_cons2 (sep a b : str) (l : list str) :
  join sep (a :: b :: l) = a ++ sep ++ join sep (b :: l).
Proof. reflexivity. Qed.



(** ** Lines *)










(* ================================================================== *)
(** * The blockquote of a page *)



(* ================================================================== *)
(** * The file name pattern *)

Lemma mem_In (c : char) (l : list char) : mem c l = true -> In c l.
Proof.
  unfold mem. intros H. apply existsb_exists in H as (x & Hx & E).
  apply N.eqb_eq in E. now subst.
Qed.

Lemma digit_not_space (c : char) : is_digit c = true -> isspace c = false.
Proof.
  intros H. destruct (isspace c) eqn:E; [|reflexivity].
  apply mem_In in E. unfold WHITESPACE in E. simpl in E.
  repeat (destruct E as [E|E]; [subst c; vm_compute in H; discriminate|]).
  contradiction.
Qed.

Lemma span_app (cl : char -> bool) (a : str) (c : char) (b : str) :
  Forall (fun x => cl x = true) a -> cl c = false ->
  span cl (a ++ c :: b) = (a, c :: b).
Proof.
  intros Ha Hc. induction Ha as [|x a Hx Ha IH]; simpl.
  - now rewrite Hc.
  - now rewrite Hx, IH.
Qed.

Lemma span_inv (cl : char -> bool) (s a b : str) :
  span cl s = (a, b) ->
  s = a ++ b /\ Forall (fun x => cl x = true) a
  /\ match b with [] => True | c :: _ => cl c = false end.
Proof.
  revert a b; induction s as [|c s IH]; intros a b H; simpl in H.
  - injection H as <- <-. repeat split; constructor.
  - destruct (cl c) eqn:Ec.
    + destruct (span cl s) as [a' b'] eqn:Es.
      injection H as <- <-.
      destruct (IH _ _ eq_refl) as (-> & Hf & Hb).
      repeat split; [now constructor|exact Hb].
    + injection H as <- <-. repeat split; [constructor|exact Ec].
Qed.

Lemma digits_n_app (a b : str) :
  all_digits a -> digits_n (List.length a) (a ++ b) = Some (a, b).
Proof.
  intros Ha. induction Ha as [|x a Hx Ha IH]; simpl; [reflexivity|].
  now rewrite Hx, IH.
Qed.

Lemma digits_n_inv (n : nat) (s a b : str) :
  digits_n n s = Some (a, b) ->
  s = a ++ b /\ List.length a = n /\ all_digits a.
Proof.
  revert s a b; induction n as [|n IH]; intros s a b H; simpl in H.
  - injection H as <- <-. repeat split; constructor.
  - destruct s as [|c s]; [discriminate|].
    destruct (is_digit c) eqn:Ec; [|discriminate].
    destruct (digits_n n s) as [[a' b']|] eqn:E; [|discriminate].
    injection H as <- <-.
    destruct (IH _ _ _ E) as (-> & Hl & Hd).
    repeat split; [simpl; now rewrite Hl|now constructor].
Qed.

Lemma expect_inv (lit s r : str) : expect lit s = Some r -> s = lit ++ r.
Proof.
  unfold expect. destruct (startswith lit s) eqn:E; [|discriminate].
  intros [= <-]. revert s E; induction lit as [|x lit IH]; intros s E.
  - reflexivity.
  - destruct s as [|y s]; [discriminate|]. simpl in E.
    apply andb_true_iff in E as [Exy Er]. apply N.eqb_eq in Exy. subst y.
    simpl. f_equal. now apply IH.
Qed.

(** ** [int] on a run of digits *)

Lemma int_body_digits (ds : str) :
  all_digits ds ->
  forall acc seen,
    int_body acc seen ds
    = match ds with
      | [] => if seen then Some acc else None
      | _ :: _ =>
        Some (fold_left (fun a c => match decimal_value c with
                                    | Some d => (10 * a + d)%Z
                                    | None => a
                                    end) ds acc)
      end.
Proof.
  induction 1 as [|c ds Hc Hds IH]; intros acc seen; [reflexivity|].
  simpl. unfold is_digit in Hc.
  destruct (decimal_value c) as [d|]; [|discriminate].
  rewrite IH. destruct ds; reflexivity.
Qed.

Lemma lstrip_by_keep (drop : char -> bool) (c : char) (s : str) :
  drop c = false -> lstrip_by drop (c :: s) = c :: s.
Proof. intros H. simpl. now rewrite H. Qed.

Lemma strip_digits (ds : str) : all_digits ds -> strip ds = ds.
Proof.
  intros H. unfold strip, strip_by.
  assert (L : lstrip_by isspace ds = ds).
  { destruct H as [|c ds Hc _]; [reflexivity|].
    apply lstrip_by_keep. now apply digit_not_space. }
  rewrite L.
  destruct ds as [|c0 ds0] using rev_ind; [reflexivity|].
  rewrite rstrip_by_snoc.
  apply Forall_app in H as [_ Hc]. inversion Hc as [|? ? Hd _]; subst.
  now rewrite (digit_not_space _ Hd).
Qed.

Lemma int_digits (ds : str) :
  ds <> [] -> all_digits ds -> int ds = Some (decimal_number ds).
Proof.
  intros Hne H. unfold int. rewrite (strip_digits H).
  destruct ds as [|c ds]; [contradiction|].
  assert (Hc : is_digit c = true) by (now inversion H).
  destruct (N.eqb_spec c 45) as [->|_]; [vm_compute in Hc; discriminate|].
  destruct (N.eqb_spec c 43) as [->|_]; [vm_compute in Hc; discriminate|].
  now rewrite (int_body_digits H).
Qed.

(** ** The pattern of the source and the pattern of the description *)

Lemma match_filename_complete (x : name_parts) :
  well_formed_parts x ->
  match_filename (name_from x)
  = Some {| g_subject := np_subject x; g_year := np_year x;
            g_era := np_era x :: np_num2 x; g_qnum := np_num x |}.
Proof.
  intros (Hs & Hsl & Hy4 & Hyd & He & Hn2 & Hn2d & Hq & Hqd).
  unfold match_filename, name_from.
  rewrite expect_app. cbn [obind].
  rewrite (span_app is_lower_az 95%N _ Hsl eq_refl
           : span is_lower_az (np_subject x ++ u "_" ++ _) = _).
  destruct (np_subject x) as [|s0 ss] eqn:Es; [contradiction|].
  rewrite <- Es.
  rewrite (expect_app (u "_") _ : expect (u "_") (95%N :: _) = _).
  cbn [obind].
  rewrite <- Hy4, (digits_n_app _ Hyd). cbn [obind snd fst].
  rewrite expect_app. cbn [obind].
  change ([np_era x] ++ ?r) with (np_era x :: r). cbv beta iota.
  assert (Ee : ((np_era x =? 115) || (np_era x =? 104))%N = true).
  { destruct He as [-> | ->]; reflexivity. }
  rewrite Ee.
  rewrite <- Hn2, (digits_n_app _ Hn2d). cbn [obind snd fst].
  rewrite expect_app. cbn [obind].
  rewrite (span_app is_digit 46%N _ Hqd eq_refl
           : span is_digit (np_num x ++ u ".txt") = _).
  destruct (np_num x) as [|n0 ns] eqn:En; [contradiction|].
  rewrite <- En.
  match goal with
  | |- context [expect ?l ?s] => change (expect l s) with (Some (@nil char))
  end.
  reflexivity.
Qed.


Lemma name_from_ends_with_t (x : name_parts) :
  exists a, name_from x = a ++ [116%N].
Proof.
  exists (u "kyushi_" ++ np_subject x ++ u "_" ++ np_year x ++ u "_"
          ++ [np_era x] ++ np_num2 x ++ u "_q" ++ np_num x ++ u ".tx").
  unfold name_from. repeat rewrite <- app_assoc. reflexivity.
Qed.

Lemma name_of_child (d : path) (name : str) : name_of (child d name) = name.
Proof. unfold name_of, child. apply last_last. Qed.


(* ================================================================== *)
(** * parse_filename *)

(** The pattern of the source ends in [$], which also matches before a
    line feed that ends the name: for the name
    [kyushi_kenpo_1985_s60_q1.txt] followed by a line feed, which is not
    of the form [kyushi_<subject>_<year4>_<era1><num2>_q<num>.txt],
    [parse_filename] returns a question.  No name the glob of the run
    yields ends in a line feed. *)
Lemma parse_filename_trailing_line_feed :
  let name := u "kyushi_kenpo_1985_s60_q1.txt" ++ [LF] in
  let p := [u "kyushi-ronbun"; u "kenpo"; name] in
  let fs := [(p, File (u "問題文"))] in
  ~ matches_pattern name
  /\ exists q, parse_filename p fs = (Ok q, fs)
               /\ slug q = u "1985_s60_q1.md".
Proof.
  cbv zeta. split.
  - intros (x & _ & E).
    destruct (name_from_ends_with_t x) as (a & Ha).
    rewrite Ha in E. apply app_inj_tail in E as [_ E]. discriminate E.
  - eexists. split; vm_compute; reflexivity.
Qed.





(** C4: for every file name of the form of the description, and whatever
    the file holds, [parse_filename] returns the question with the subject
    code, the year and the question number as the integers their digits
    denote, the era code, the slug [{year}_{era_code}_q{qnum}.md] and no
    tags; the slug is given by the name alone. *)
Theorem parse_filename_fields
        (x : name_parts) (d : path) (fs : filesystem) (content : str) :
  well_formed_parts x ->
  fs_lookup fs (child d (name_from x)) = Some (File content) ->
  parse_filename (child d (name_from x)) fs
  = (Ok {| subject := np_subject x;
           subject_label :=
             dict_get_default SUBJECT_NAMES (np_subject x) (np_subject x);
           year := decimal_number (np_year x);
           era_code := np_era x :: np_num2 x;
           qnum := decimal_number (np_num x);
           text := strip_chars [LF] content;
           slug := str_of_int (decimal_number (np_year x)) ++ u "_"
                   ++ (np_era x :: np_num2 x) ++ u "_q"
                   ++ str_of_int (decimal_number (np_num x)) ++ u ".md";
           source := u "kyushi-ronbun/" ++ np_subject x ++ u "/"
                     ++ name_from x;
           tags := [] |}, fs).
Proof.
  intros W Hf. pose proof W as (_ & _ & Hy4 & Hyd & _ & _ & _ & Hq & Hqd).
  unfold parse_filename. rewrite name_of_child.
  rewrite (match_filename_complete W).
  cbn [g_subject g_year g_era g_qnum].
  unfold int_or_raise.
  rewrite (int_digits (ds := np_year x)); [|destruct (np_year x); [discriminate|discriminate]|exact Hyd].
  rewrite (int_digits Hq Hqd).
  unfold bind, lift, read_text, ret. now rewrite Hf.
Qed.

(** The example of the description, [kyushi_kenpo_1985_s60_q1.txt]. *)
Lemma parse_filename_fields_witness :
  let x := {| np_subject := u "kenpo"; np_year := u "1985"; np_era := 115%N;
              np_num2 := u "60"; np_num := u "1" |} in
  let d := [u "kyushi-ronbun"; u "kenpo"] in
  let fs := [(child d (name_from x), File (u "問題文"))] in
  well_formed_parts x
  /\ (exists q, parse_filename (child d (name_from x)) fs = (Ok q, fs)
                /\ slug q = u "1985_s60_q1.md"
                /\ (year q, qnum q) = (1985%Z, 1%Z)).
Proof.
  cbv zeta.
  assert (W : well_formed_parts
                {| np_subject := u "kenpo"; np_year := u "1985";
                   np_era := 115%N; np_num2 := u "60"; np_num := u "1" |}).
  { unfold well_formed_parts, all_digits. cbn.
    repeat split; try discriminate; auto; repeat constructor. }
  split; [exact W|].
  eexists. split.
  - apply (@parse_filename_fields _ _ _ (u "問題文") W). reflexivity.
  - split; reflexivity.
Defined.

(* ================================================================== *)
(** * read_existing_tags_and_memo *)

Section Reader.

Variable yaml_safe_load : yaml_loader.

Lemma existing_tags_described (content : str) :
  existing_tags yaml_safe_load content
  = match metadata_block content with
    | None => []
    | Some block =>
      match yaml_safe_load block with
      | Raise _ => []
      | Ok meta =>
        match tags_field meta with
        | Some ts => tags_text ts
        | None => []
        end
      end
    end.
Proof.
  unfold existing_tags, metadata_block.
  destruct (startswith FENCE content); [|reflexivity].
  destruct (split FENCE 2 content) as [|a [|block [|c r]]] eqn:E;
    try reflexivity.
  assert (r = []) as ->.
  { simpl in E. destruct (cut FENCE content) as [[a0 b0]|];
      [|discriminate].
    destruct (cut FENCE b0) as [[a1 b1]|]; [|discriminate].
    now injection E as _ _ _ <-. }
  destruct (yaml_safe_load block) as [[t m|t m|t|n|t]|e]; try reflexivity.
  simpl. destruct (dict_get m (u "tags")) as [[| | | |]|]; reflexivity.
Qed.

End Reader.

(* ================================================================== *)
(** * The layout of a page and what the reader finds in it *)

Lemma join_app_lines (sep : str) (xs rest : list str) :
  rest <> [] ->
  join sep (xs ++ rest)
  = List.concat (map (fun x => x ++ sep) xs) ++ join sep rest.
Proof.
  intros Hr. induction xs as [|x xs IH]; [reflexivity|].
  cbn [app map List.concat]. rewrite <- app_assoc, <- IH.
  destruct (xs ++ rest) as [|y ys] eqn:E.
  - apply app_eq_nil in E as [_ E]. contradiction.
  - now rewrite join_cons2, app_assoc.
Qed.

Lemma join_cons_ne (sep a : str) (l : list str) :
  l <> [] -> join sep (a :: l) = a ++ sep ++ join sep l.
Proof. destruct l; [contradiction|reflexivity]. Qed.

Lemma page_content_layout (title blockquote : str) (existing : list str)
      (memo : str) :
  page_content title blockquote existing memo
  = page_head title blockquote existing
    ++ MEMO_HEADING ++ [LF; LF] ++ memo ++ [LF].
Proof.
  unfold page_content, frontmatter, page_head, metadata_text, tag_lines.
  destruct existing as [|t ts].
  - cbn [app join].
    repeat (rewrite <- app_assoc || rewrite <- app_comm_cons).
    reflexivity.
  - cbn [app]. rewrite !join_cons2.
    rewrite join_cons_ne by (cbn; discriminate).
    rewrite <- (app_assoc (map _ (t :: ts))).
    rewrite join_app_lines by discriminate.
    rewrite map_map.
    cbn [app join].
    repeat (rewrite <- app_assoc || rewrite <- app_comm_cons).
    reflexivity.
Qed.

Lemma occurs_cons (p : str) (c : char) (s : str) :
  occurs p (c :: s) = startswith p (c :: s) || occurs p s.
Proof. reflexivity. Qed.

Lemma occurs_startswith (p s : str) :
  occurs p s = false -> startswith p s = false.
Proof.
  destruct s; simpl; intros H; apply orb_false_iff in H; tauto.
Qed.

(** No match of [p] starts inside a text that holds no occurrence of [p]
    and ends in a line feed, when [p] holds no line feed. *)
Lemma startswith_after_clean (p a rest : str) :
  mem LF p = false ->
  occurs p (a ++ [LF]) = false ->
  startswith p ((a ++ [LF]) ++ rest) = false.
Proof.
  intros Hp Ho. destruct (startswith p ((a ++ [LF]) ++ rest)) eqn:E;
    [|reflexivity].
  apply startswith_app_inv in E as [E|E].
  - apply occurs_startswith in Ho. congruence.
  - apply Forall_app in E as [_ E]. inversion E; subst. congruence.
Qed.

Lemma occurs_tail (p : str) (c : char) (s : str) :
  occurs p (c :: s) = false -> occurs p s = false.
Proof. rewrite occurs_cons. intros H. apply orb_false_iff in H. tauto. Qed.

Lemma cut_eq (sep s : str) :
  cut sep s
  = if startswith sep s then Some ([], skipn (List.length sep) s)
    else match s with
         | [] => None
         | c :: s' =>
           match cut sep s' with
           | Some (a, b) => Some (c :: a, b)
           | None => None
           end
         end.
Proof. destruct s; reflexivity. Qed.

Lemma cut_here (sep b : str) : cut sep (sep ++ b) = Some ([], b).
Proof. now rewrite cut_eq, startswith_app, skipn_length_app. Qed.

Lemma cut_after_clean (sep a b : str) :
  mem LF sep = false ->
  occurs sep (a ++ [LF]) = false ->
  cut sep ((a ++ [LF]) ++ sep ++ b) = Some (a ++ [LF], b).
Proof.
  intros Hs. induction a as [|c a IH]; intros Ho.
  - rewrite cut_eq, (@startswith_after_clean _ [] _ Hs Ho).
    cbn [app]. now rewrite cut_here.
  - rewrite cut_eq, (@startswith_after_clean _ (c :: a) _ Hs Ho).
    cbn [app]. cbn [app] in IH. rewrite IH; [reflexivity|].
    eapply occurs_tail. exact Ho.
Qed.

Lemma memo_search_eq (content : str) :
  memo_search content
  = match memo_match_at content with
    | Some g => Some g
    | None =>
      match content with
      | [] => None
      | _ :: rest => memo_search rest
      end
    end.
Proof. destruct content; reflexivity. Qed.

Lemma memo_search_after_clean (a rest : str) :
  occurs MEMO_HEADING (a ++ [LF]) = false ->
  memo_search ((a ++ [LF]) ++ rest) = memo_search rest.
Proof.
  induction a as [|c a IH]; intros Ho.
  - reflexivity.
  - rewrite memo_search_eq. unfold memo_match_at, expect.
    rewrite (@startswith_after_clean MEMO_HEADING (c :: a) _ eq_refl Ho).
    cbn [obind app]. cbn [app] in IH. apply IH.
    eapply occurs_tail. exact Ho.
Qed.

Lemma spaces_then_newline_app (m t : str) :
  spaces_then_newline m = None -> has_ink m = true ->
  spaces_then_newline (m ++ t) = None.
Proof.
  induction m as [|c m IH]; intros Hn Hi; [discriminate|].
  simpl in *. destruct (isspace c) eqn:Ec; [|reflexivity].
  simpl in Hi.
  destruct (spaces_then_newline m) eqn:Em; [discriminate|].
  rewrite (IH eq_refl Hi).
  destruct (c =? LF)%N; [discriminate|reflexivity].
Qed.

Lemma memo_found (memo : str) :
  memo <> [] -> rstrip memo = memo -> spaces_then_newline memo = None ->
  existing_memo (MEMO_HEADING ++ [LF; LF] ++ memo ++ [LF]) = memo.
Proof.
  intros Hne Hr Hs.
  assert (Hi : has_ink memo = true).
  { destruct (has_ink memo) eqn:E; [reflexivity|].
    apply rstrip_no_ink in E. congruence. }
  unfold existing_memo. rewrite memo_search_eq.
  unfold memo_match_at. rewrite expect_app. cbn [obind app].
  assert (G : spaces_then_newline (LF :: LF :: memo ++ [LF])
              = Some (memo ++ [LF])).
  { change (spaces_then_newline (LF :: LF :: memo ++ [LF]))
      with (match (match spaces_then_newline (memo ++ [LF]) with
                   | Some r => Some r
                   | None => Some (memo ++ [LF])
                   end) with
            | Some r => Some r
            | None => Some (LF :: memo ++ [LF])
            end).
    now rewrite (@spaces_then_newline_app _ _ Hs Hi). }
  rewrite G.
  unfold rstrip in *. rewrite rstrip_by_snoc.
  change (isspace LF) with true. cbv iota. rewrite Hr.
  destruct memo; [contradiction|reflexivity].
Qed.

Lemma existing_memo_after_clean (a rest : str) :
  occurs MEMO_HEADING (a ++ [LF]) = false ->
  existing_memo ((a ++ [LF]) ++ rest) = existing_memo rest.
Proof.
  intros H. unfold existing_memo. now rewrite memo_search_after_clean.
Qed.

Lemma existing_tags_of_block (Y : yaml_loader) (a rest : str) :
  occurs FENCE (a ++ [LF]) = false ->
  existing_tags Y (FENCE ++ (a ++ [LF]) ++ FENCE ++ rest)
  = match Y (a ++ [LF]) with
    | Raise _ => []
    | Ok meta =>
      match tags_field meta with
      | Some ts => tags_text ts
      | None => []
      end
    end.
Proof.
  intros H. rewrite existing_tags_described. unfold metadata_block.
  rewrite startswith_app.
  change (split FENCE 2 ?s)
    with (match cut FENCE s with
          | None => [s]
          | Some (x, b) =>
            x :: match cut FENCE b with
                 | None => [b]
                 | Some (y, c) => [y; c]
                 end
          end).
  rewrite cut_here, (@cut_after_clean FENCE a rest eq_refl H).
  reflexivity.
Qed.

(* ================================================================== *)
(** * What the reader tolerates *)

Lemma cut_first (sep a b : str) :
  (forall k, (k < List.length a)%nat ->
             startswith sep (skipn k (a ++ sep ++ b)) = false) ->
  cut sep (a ++ sep ++ b) = Some (a, b).
Proof.
  induction a as [|c a IH]; intros H.
  - exact (cut_here sep b).
  - rewrite cut_eq.
    pose proof (H 0%nat ltac:(cbn; lia)) as H0. cbn [skipn] in H0.
    rewrite H0. cbn [app].
    rewrite IH; [reflexivity|].
    intros k Hk. apply (H (S k)). cbn. lia.
Qed.

Lemma cut_absent (sep s : str) :
  (forall k, startswith sep (skipn k s) = false) -> cut sep s = None.
Proof.
  induction s as [|c s IH]; intros H; rewrite cut_eq;
    pose proof (H 0%nat) as H0; cbn [skipn] in H0; rewrite H0.
  - reflexivity.
  - rewrite IH; [reflexivity|]. intros k. apply (H (S k)).
Qed.

Lemma cut_found (sep s a b : str) :
  cut sep s = Some (a, b) ->
  s = a ++ sep ++ b
  /\ forall k, (k < List.length a)%nat ->
               startswith sep (skipn k s) = false.
Proof.
  revert a b; induction s as [|c s IH]; intros a b H; rewrite cut_eq in H.
  - destruct (startswith sep []) eqn:E; [|discriminate].
    injection H as <- <-. split; [|intros k Hk; inversion Hk].
    apply (@expect_inv sep [] (skipn (List.length sep) [])).
    unfold expect. now rewrite E.
  - destruct (startswith sep (c :: s)) eqn:E.
    + injection H as <- <-. split; [|intros k Hk; inversion Hk].
      apply (@expect_inv sep (c :: s) (skipn (List.length sep) (c :: s))).
      unfold expect. now rewrite E.
    + destruct (cut sep s) as [[a' b']|]; [|discriminate].
      injection H as <- <-. destruct (IH a' b' eq_refl) as [-> Hk].
      split; [reflexivity|].
      intros [|k] Hlt; [exact E|]. apply Hk. cbn in Hlt. lia.
Qed.

Lemma cut_missing (sep s : str) :
  cut sep s = None -> forall k, startswith sep (skipn k s) = false.
Proof.
  induction s as [|c s IH]; intros H k; rewrite cut_eq in H.
  - destruct (startswith sep []) eqn:E; [discriminate|].
    now destruct k.
  - destruct (startswith sep (c :: s)) eqn:E; [discriminate|].
    destruct (cut sep s) as [[a' b']|]; [discriminate|].
    destruct k as [|k]; [exact E|]. now apply IH.
Qed.

Lemma collect_texts {A B} (f : A -> result B) (l : list A) (texts : list B) :
  Forall2 (fun o s => f o = Ok s) l texts -> collect (map f l) = Ok texts.
Proof.
  induction 1 as [|o s l texts Ho _ IH]; [reflexivity|].
  cbn [map collect]. unfold rbind. now rewrite Ho, IH.
Qed.

Lemma collect_raises {A B} (f : A -> result B) (l : list A) :
  Exists (fun o => exists e, f o = Raise e) l ->
  exists e, collect (map f l) = Raise e.
Proof.
  induction 1 as [o l [e He]|o l _ [e IH]]; cbn [map collect]; unfold rbind.
  - rewrite He. eauto.
  - destruct (f o); [rewrite IH|]; eauto.
Qed.

Lemma reads_as_py_str (o : pyobj) (s : str) :
  reads_as o s -> py_str o = Ok s.
Proof.
  destruct o as [r items|r items|s'|n|r]; cbn [reads_as py_str];
    try (intros ->; reflexivity).
  intros [Hn <-]. unfold int_str.
  destruct (N.ltb_spec 4300 (int_digits_count n)); [lia|reflexivity].
Qed.

Lemma unreadable_py_str (o : pyobj) :
  unreadable o -> exists e, py_str o = Raise e.
Proof.
  destruct o as [r items|r items|s'|n|r]; cbn [unreadable py_str];
    try (intros [e ->]; eauto); [contradiction|].
  intros Hn. unfold int_str.
  destruct (N.ltb_spec 4300 (int_digits_count n)); [eauto|lia].
Qed.

Section Tolerance.

Variable yaml_safe_load : yaml_loader.

Lemma no_block_or_block (content : str) :
  no_block content \/ exists block rest, block_of content block rest.
Proof.
  unfold no_block, block_of.
  destruct (startswith FENCE content) eqn:Es; [|now left; left].
  assert (E : content = FENCE ++ skipn 3 content).
  { apply (@expect_inv FENCE content (skipn 3 content)).
    unfold expect. now rewrite Es. }
  destruct (cut FENCE (skipn 3 content)) as [[a b]|] eqn:Ec.
  - right. exists a, b. apply cut_found in Ec as [Ea Hk].
    rewrite <- Ea. split; [exact E|exact Hk].
  - left. right. now apply cut_missing.
Qed.

Lemma existing_tags_without_block (content : str) :
  no_block content -> existing_tags yaml_safe_load content = [].
Proof.
  unfold existing_tags. intros [H|H]; [now rewrite H|].
  destruct (startswith FENCE content) eqn:Es; [|reflexivity].
  change (split FENCE 2 content)
    with (match cut FENCE content with
          | None => [content]
          | Some (x, b) =>
            x :: match cut FENCE b with
                 | None => [b]
                 | Some (y, c) => [y; c]
                 end
          end).
  rewrite (cut_eq FENCE content), Es.
  change (List.length FENCE) with 3%nat.
  now rewrite (cut_absent _ _ H).
Qed.

Lemma existing_tags_with_block (content block rest : str) :
  block_of content block rest ->
  existing_tags yaml_safe_load content
  = match yaml_safe_load block with
    | Raise _ => []
    | Ok meta =>
      match tags_field meta with
      | Some ts => tags_text ts
      | None => []
      end
    end.
Proof.
  intros [-> Hk]. rewrite existing_tags_described. unfold metadata_block.
  rewrite startswith_app.
  change (split FENCE 2 ?s)
    with (match cut FENCE s with
          | None => [s]
          | Some (x, b) =>
            x :: match cut FENCE b with
                 | None => [b]
                 | Some (y, c) => [y; c]
                 end
          end).
  rewrite cut_here, (cut_first _ _ _ Hk). reflexivity.
Qed.

(** C5 (amended): at a path that holds nothing the reader returns no
    tags and the placeholder memo; at a file that is not UTF-8 text it
    raises [UnicodeDecodeError]; at a file of text, whatever the text,
    it returns normally.  The text either has no metadata block or has
    one; the tags are none when it has no block, when the loader raises
    on the block, when what it loads is not a mapping, and when the
    [tags] field is missing or is not a sequence.  When the field is a
    sequence, the tags are the texts [str()] gives for the entries, in
    order — a [str] entry is itself, an [int] entry its decimal text —
    and none when [str()] raises on an entry (an [int] of more than
    4300 digits). *)
Theorem read_existing_tags_and_memo_tolerant (p : path) (fs : filesystem) :
  match fs_lookup fs p with
  | None =>
    read_existing_tags_and_memo yaml_safe_load p fs
    = (Ok ([], DEFAULT_MEMO), fs)
  | Some Dir =>
    read_existing_tags_and_memo yaml_safe_load p fs
    = (Raise IsADirectoryError, fs)
  | Some Binary =>
    read_existing_tags_and_memo yaml_safe_load p fs
    = (Raise UnicodeDecodeError, fs)
  | Some (File content) =>
    (no_block content \/ exists block rest, block_of content block rest)
    /\ exists tags memo,
        read_existing_tags_and_memo yaml_safe_load p fs
        = (Ok (tags, memo), fs)
        /\ (no_block content -> tags = [])
        /\ forall block rest,
            block_of content block rest ->
            match yaml_safe_load block with
            | Raise _ => tags = []
            | Ok (PyDict _ items) =>
              match dict_get items (u "tags") with
              | Some (PyList _ ts) =>
                (forall texts, Forall2 reads_as ts texts -> tags = texts)
                /\ (Exists unreadable ts -> tags = [])
                /\ (forall texts, ts = map PyStr texts -> tags = texts)
              | _ => tags = []
              end
            | Ok _ => tags = []
            end
  end.
Proof.
  destruct (fs_lookup fs p) as [[|content|]|] eqn:E;
    unfold read_existing_tags_and_memo, bind, exists_, read_text, ret;
    rewrite E; cbn [negb]; try rewrite E; try reflexivity.
  split; [apply no_block_or_block|].
  exists (existing_tags yaml_safe_load content), (existing_memo content).
  split; [reflexivity|]. split; [apply existing_tags_without_block|].
  intros block rest B. rewrite (existing_tags_with_block B).
  destruct (yaml_safe_load block) as [[t items|t items|t|n|t]|e];
    try reflexivity.
  cbn [tags_field].
  destruct (dict_get items (u "tags")) as [[t' m|t' ts|t'|n|t']|];
    try reflexivity.
  unfold tags_text.
  assert (F : forall texts,
             Forall2 (fun o s => py_str o = Ok s) ts texts ->
             match collect (map py_str ts) with
             | Ok tags => tags
             | Raise _ => []
             end = texts).
  { intros texts H. now rewrite (collect_texts _ H). }
  split; [|split].
  - intros texts H. apply F. eapply Forall2_impl; [|exact H].
    intros o s. apply reads_as_py_str.
  - intros H.
    destruct (@collect_raises _ _ py_str ts) as [e ->]; [|reflexivity].
    eapply Exists_impl; [|exact H]. intros o. apply unreadable_py_str.
  - intros texts ->. apply F. clear F.
    induction texts as [|s texts IH]; constructor; [reflexivity|exact IH].
Qed.

End Tolerance.

(** C5 (as stated): the reader raises at a page that is not UTF-8 text;
    and at a page whose [tags] field is a sequence with an entry on
    which [str()] raises (an integer of more than 4300 digits), it
    returns no tags instead of the texts of the entries. *)
Lemma read_existing_tags_and_memo_raises :
  read_existing_tags_and_memo plain_loader example_target binary_docs
  = (Raise UnicodeDecodeError, binary_docs)
  /\ unreadable (PyInt LONG_INT)
  /\ read_existing_tags_and_memo long_int_loader example_target
                                 (docs_with long_int_page)
     = (Ok ([], DEFAULT_MEMO), docs_with long_int_page).
Proof.
  split; [reflexivity|]. split.
  - cbn [unreadable]. apply N.ltb_lt. vm_compute. reflexivity.
  - vm_compute. reflexivity.
Qed.

(** A page with one tag, read with the loader of the examples. *)
Lemma read_existing_tags_and_memo_tolerant_witness :
  exists tags memo,
    read_existing_tags_and_memo plain_loader example_target
                                (docs_with one_tag_page)
    = (Ok (tags, memo), docs_with one_tag_page)
    /\ tags = [u "刑法"].
Proof.
  pose proof (@read_existing_tags_and_memo_tolerant
                plain_loader example_target (docs_with one_tag_page)) as T.
  change (fs_lookup (docs_with one_tag_page) example_target)
    with (Some (File one_tag_page)) in T.
  destruct T as (_ & tags & memo & R & _ & B).
  exists tags, memo. split; [exact R|].
  assert (Hb : block_of one_tag_page one_tag_block [LF]).
  { split; [reflexivity|]. intros k Hk.
    do 14 (destruct k as [|k]; [reflexivity|]).
    cbn in Hk. lia. }
  specialize (B one_tag_block [LF] Hb).
  change (plain_loader one_tag_block)
    with (Ok (PyDict (Ok []) [(u "tags", PyList (Ok []) [PyStr (u "刑法")])]))
    in B.
  cbn [dict_get] in B.
  change (str_eqb (u "tags") (u "tags")) with true in B. cbv iota in B.
  destruct B as (_ & _ & S). now apply (S [u "刑法"]).
Defined.

Lemma metadata_text_ends (title : str) (existing : list str) :
  exists a, metadata_text title existing = a ++ [LF].
Proof.
  unfold metadata_text, tag_lines. destruct existing as [|t ts].
  - exists ([LF] ++ u "title: " ++ title ++ [LF] ++ u "tags: []").
    repeat rewrite <- app_assoc. reflexivity.
  - destruct (@exists_last _ (t :: ts)) as (ts' & t' & E); [discriminate|].
    rewrite E, map_app, concat_app. cbn [map List.concat].
    exists ([LF] ++ u "title: " ++ title ++ [LF] ++ u "tags:" ++ [LF]
            ++ List.concat (map (fun t => u "  - " ++ t ++ [LF]) ts')
            ++ u "  - " ++ t').
    rewrite app_nil_r. repeat rewrite <- app_assoc. reflexivity.
Qed.

Lemma page_head_ends (title blockquote : str) (existing : list str) :
  exists a, page_head title blockquote existing = a ++ [LF].
Proof.
  exists (FENCE ++ metadata_text title existing ++ FENCE
          ++ [LF; LF] ++ u "# " ++ title ++ [LF; LF] ++ u "## 問題"
          ++ [LF; LF] ++ blockquote ++ [LF]).
  unfold page_head.
  repeat (rewrite <- app_assoc || rewrite <- app_comm_cons). reflexivity.
Qed.

Lemma fs_set_same (fs : filesystem) (p : path) (c : str) :
  fs_lookup fs p = Some (File c) -> fs_set fs p (File c) = fs.
Proof.
  destruct p as [|x p]; [destruct fs; discriminate|].
  induction fs as [|[p' n'] fs IH]; intros H; [discriminate|].
  cbn [fs_lookup fs_set] in *.
  destruct (path_eqb p' (x :: p)) eqn:E.
  - apply path_eqb_eq in E. now injection H as ->; subst.
  - f_equal. apply IH. exact H.
Qed.

Lemma fs_lookup_set_same (fs : filesystem) (p : path) (n : node) :
  p <> [] -> fs_lookup (fs_set fs p n) p = Some n.
Proof.
  intros Hp. destruct p as [|x p]; [contradiction|].
  induction fs as [|[p' n'] fs IH]; cbn [fs_set fs_lookup].
  - now rewrite path_eqb_refl.
  - destruct (path_eqb p' (x :: p)) eqn:E; cbn [fs_lookup].
    + now rewrite path_eqb_refl.
    + rewrite E. exact IH.
Qed.

Lemma fs_lookup_root (fs : filesystem) : fs_lookup fs [] = Some Dir.
Proof. destruct fs as [|[p n] fs]; reflexivity. Qed.

Lemma fs_lookup_set_other (fs : filesystem) (p q : path) (n : node) :
  q <> p -> fs_lookup (fs_set fs p n) q = fs_lookup fs q.
Proof.
  intros Hq. destruct q as [|y q]; [now rewrite !fs_lookup_root|].
  assert (Np : path_eqb p (y :: q) = false).
  { destruct (path_eqb p (y :: q)) eqn:E; [|reflexivity].
    apply path_eqb_eq in E. congruence. }
  induction fs as [|[p' n'] fs IH]; cbn [fs_set fs_lookup].
  - now rewrite Np.
  - destruct (path_eqb p' p) eqn:E; cbn [fs_lookup].
    + apply path_eqb_eq in E. subst p'. now rewrite Np.
    + destruct (path_eqb p' (y :: q)); [reflexivity|exact IH].
Qed.

Lemma parent_neq (p : path) : p <> [] -> parent p <> p.
Proof.
  intros Hp E. apply (f_equal (@List.length str)) in E.
  unfold parent in E. destruct (@exists_last _ p Hp) as (l & a & ->).
  rewrite removelast_last, length_app in E. simpl in E. lia.
Qed.

Section Regeneration.

Variable yaml_safe_load : yaml_loader.

(** What the reader recovers from a page the generator wrote. *)
Lemma read_back_tags (title blockquote : str) (existing : list str)
      (memo : str) :
  occurs FENCE (metadata_text title existing) = false ->
  existing_tags yaml_safe_load (page_content title blockquote existing memo)
  = match yaml_safe_load (metadata_text title existing) with
    | Raise _ => []
    | Ok meta =>
      match tags_field meta with
      | Some ts => tags_text ts
      | None => []
      end
    end.
Proof.
  intros Hfence. rewrite page_content_layout.
  destruct (metadata_text_ends title existing) as (a & Ea).
  unfold page_head. rewrite Ea in *.
  repeat rewrite <- (app_assoc FENCE).
  repeat rewrite <- (app_assoc (a ++ [LF])).
  repeat rewrite <- (app_assoc FENCE).
  now rewrite (@existing_tags_of_block yaml_safe_load a _ Hfence).
Qed.

Lemma read_back_memo (title blockquote : str) (existing : list str)
      (memo : str) :
  occurs MEMO_HEADING (page_head title blockquote existing) = false ->
  memo <> [] -> rstrip memo = memo -> spaces_then_newline memo = None ->
  existing_memo (page_content title blockquote existing memo) = memo.
Proof.
  intros Hhead Hne Hr Hs. rewrite page_content_layout.
  destruct (page_head_ends title blockquote existing) as (a & Ea).
  rewrite Ea in *. rewrite (@existing_memo_after_clean a _ Hhead).
  now apply memo_found.
Qed.

(** A page written where there was none is written again unchanged by
    the next run, when the heading [## メモ] does not occur in the title
    or the quoted question and the loader finds no tags in the block of a
    page without tags. *)
Lemma fresh_page_regenerated_unchanged
      (fs : filesystem) (target : path) (q : Question) (title : str) :
  page_title q = Ok title ->
  fs_lookup fs target = None ->
  fs_lookup fs (parent target) = Some Dir ->
  match yaml_safe_load (metadata_text title []) with
  | Ok meta => tags_field meta = None \/ tags_field meta = Some []
  | Raise _ => True
  end ->
  occurs FENCE (metadata_text title []) = false ->
  occurs MEMO_HEADING (page_head title (format_blockquote (text q)) [])
  = false ->
  exists fs1,
    write_question_page yaml_safe_load target q fs = (Ok (set_tags q []), fs1)
    /\ write_question_page yaml_safe_load target q fs1
       = (Ok (set_tags q []), fs1).
Proof.
  intros Ht Habsent Hparent HY Hfence Hhead.
  assert (Hne : target <> []).
  { intros ->. rewrite fs_lookup_root in Habsent. discriminate. }
  set (page := page_content title (format_blockquote (text q)) []
                            DEFAULT_MEMO).
  exists (fs_set fs target (File page)). split.
  - unfold write_question_page, bind, lift. rewrite Ht.
    unfold read_existing_tags_and_memo, bind, exists_, ret.
    rewrite Habsent. cbn [negb fst snd]. unfold write_text.
    now rewrite Habsent, Hparent.
  - assert (Hpage : fs_lookup (fs_set fs target (File page)) target
                    = Some (File page))
      by now apply fs_lookup_set_same.
    assert (Hpar : fs_lookup (fs_set fs target (File page)) (parent target)
                   = Some Dir).
    { rewrite fs_lookup_set_other; [exact Hparent|now apply parent_neq]. }
    assert (Etags : existing_tags yaml_safe_load page = []).
    { unfold page. rewrite (@read_back_tags title _ [] _ Hfence).
      destruct (yaml_safe_load (metadata_text title [])) as [meta|e];
        [|reflexivity].
      destruct HY as [-> | ->]; reflexivity. }
    assert (Ememo : existing_memo page = DEFAULT_MEMO).
    { unfold page. apply read_back_memo;
        [exact Hhead|discriminate|reflexivity|reflexivity]. }
    unfold write_question_page, bind, lift. rewrite Ht.
    unfold read_existing_tags_and_memo, bind, exists_, read_text, ret.
    rewrite Hpage. cbn [negb]. rewrite Hpage, Etags, Ememo.
    cbn [fst snd]. unfold write_text. fold page.
    rewrite Hpage, Hpar. now rewrite (@fs_set_same _ target _ Hpage).
Qed.

(** C2 (amended): when a page of the generator holds a memo that is not
    empty, ends in no whitespace and begins with no blank line, when
    the heading [## メモ] occurs nowhere before the memo section, and
    when the loader reads the metadata block of the page (which holds no
    [---]) back as the list of its tags, regenerating the page recovers
    exactly those tags and that memo and writes the same page again. *)
Theorem regeneration_preserves_tags_and_memo
        (fs : filesystem) (target : path) (q : Question)
        (title : str) (existing : list str) (memo : str)
        (meta : pyobj) (entries : list pyobj) :
  page_title q = Ok title ->
  fs_lookup fs target
  = Some (File (page_content title (format_blockquote (text q))
                             existing memo)) ->
  fs_lookup fs (parent target) = Some Dir ->
  yaml_safe_load (metadata_text title existing) = Ok meta ->
  tags_field meta = Some entries ->
  collect (map py_str entries) = Ok existing ->
  occurs FENCE (metadata_text title existing) = false ->
  occurs MEMO_HEADING
         (page_head title (format_blockquote (text q)) existing) = false ->
  memo <> [] -> rstrip memo = memo -> spaces_then_newline memo = None ->
  read_existing_tags_and_memo yaml_safe_load target fs
  = (Ok (existing, memo), fs)
  /\ write_question_page yaml_safe_load target q fs
     = (Ok (set_tags q existing), fs).
Proof.
  intros Ht Hpage Hparent HY Hf He Hfence Hhead Hne Hr Hs.
  assert (Etags : existing_tags yaml_safe_load
                    (page_content title (format_blockquote (text q))
                                  existing memo) = existing).
  { rewrite (@read_back_tags title _ existing _ Hfence).
    rewrite HY, Hf. unfold tags_text. now rewrite He. }
  assert (Ememo : existing_memo
                    (page_content title (format_blockquote (text q))
                                  existing memo) = memo)
    by now apply read_back_memo.
  assert (R : read_existing_tags_and_memo yaml_safe_load target fs
              = (Ok (existing, memo), fs)).
  { unfold read_existing_tags_and_memo, bind, exists_, read_text, ret.
    rewrite Hpage. cbn. rewrite Hpage. now rewrite Etags, Ememo. }
  split; [exact R|].
  unfold write_question_page, bind, lift. rewrite Ht, R.
  cbn [fst snd]. unfold write_text, ret.
  rewrite Hpage, Hparent. now rewrite (@fs_set_same fs target _ Hpage).
Qed.

End Regeneration.

(** C2 (as stated): a page whose memo ends in a space is not regenerated
    with the same memo: the reader recovers the memo without the space,
    and the page written differs from the page that was there. *)
Lemma regeneration_drops_trailing_space :
  read_existing_tags_and_memo plain_loader example_target
    (docs_with (page_content example_title (u "> 問題文") [u "共同正犯"]
                             (u "メモ ")))
  = (Ok ([u "共同正犯"], u "メモ"),
     docs_with (page_content example_title (u "> 問題文") [u "共同正犯"]
                             (u "メモ ")))
  /\ fs_lookup
       (snd (write_question_page plain_loader example_target
               (example_question (u "問題文"))
               (docs_with (page_content example_title (u "> 問題文")
                                        [u "共同正犯"] (u "メモ ")))))
       example_target
     <> Some (File (page_content example_title (u "> 問題文") [u "共同正犯"]
                                 (u "メモ "))).
Proof.
  split.
  - vm_compute. reflexivity.
  - vm_compute. discriminate.
Qed.

(** A page with two tags and a memo of one line is regenerated
    unchanged. *)
Lemma regeneration_preserves_tags_and_memo_witness :
  write_question_page plain_loader example_target
    (example_question (u "問題文"))
    (docs_with (page_content example_title (u "> 問題文")
                             [u "共同正犯"; u "刑法総論"] (u "自分のメモ")))
  = (Ok (set_tags (example_question (u "問題文")) [u "共同正犯"; u "刑法総論"]),
     docs_with (page_content example_title (u "> 問題文")
                             [u "共同正犯"; u "刑法総論"] (u "自分のメモ"))).
Proof.
  refine (proj2 (@regeneration_preserves_tags_and_memo
                   plain_loader
                   (docs_with (page_content example_title (u "> 問題文")
                                 [u "共同正犯"; u "刑法総論"] (u "自分のメモ")))
                   example_target (example_question (u "問題文"))
                   example_title [u "共同正犯"; u "刑法総論"] (u "自分のメモ")
                   (PyDict (Ok []) [(u "tags",
                                PyList (Ok []) [PyStr (u "共同正犯");
                                                PyStr (u "刑法総論")])])
                   [PyStr (u "共同正犯"); PyStr (u "刑法総論")]
                   _ _ _ _ _ _ _ _ _ _ _));
    try reflexivity; discriminate.
Defined.

(* ================================================================== *)
(** * Runs of the generator *)

Lemma page_content_tail (title blockquote : str) (existing : list str)
      (memo : str) :
  page_content title blockquote existing memo
  = page_prefix title existing ++ page_tail blockquote memo.
Proof.
  rewrite page_content_layout. unfold page_head, page_prefix, page_tail.
  repeat (rewrite <- app_assoc || rewrite <- app_comm_cons). reflexivity.
Qed.

Section Runs.

Variable yaml_safe_load : yaml_loader.
Variable lower : str -> str.
Variable HOME_SCRIPT : str.

(** C1: on a dataset with the subject [kenpo] and one question, the run
    ends normally with the page of the question and the home page
    written, and with no [index.md] in the directory of the subject:
    [main] never calls [write_subject_index]. *)
Theorem main_writes_no_subject_index :
  exists fs',
    main yaml_safe_load lower HOME_SCRIPT (dataset [(example_name, u "問題文")]) = (Ok tt, fs')
    /\ fs_lookup fs' example_target
       = Some (File (page_content example_title (u "> 問題文") []
                                  DEFAULT_MEMO))
    /\ fs_lookup fs' (child DOCS_DIR (u "index.md")) <> None
    /\ fs_lookup fs' (child example_output_dir (u "index.md")) = None
    /\ entries_of fs' example_output_dir = [example_target].
Proof.
  eexists. split; [vm_compute; reflexivity|].
  split; [vm_compute; reflexivity|].
  split; [vm_compute; discriminate|].
  split; vm_compute; reflexivity.
Qed.

(** C6: on a dataset whose one question has the text [## メモ], the
    second of two runs finds the heading of the quoted question before
    the memo section of the page the first run wrote, takes all that
    follows it as the memo, and writes a page that differs from the
    page of the first run. *)
Theorem second_run_changes_page :
  let page1 :=
    page_content example_title (u "> ## メモ") [] DEFAULT_MEMO in
  let page2 :=
    page_content example_title (u "> ## メモ")
                 (existing_tags yaml_safe_load page1)
                 (MEMO_HEADING ++ [LF; LF] ++ DEFAULT_MEMO) in
  exists fs1 fs2,
    main yaml_safe_load lower HOME_SCRIPT (dataset [(example_name, u "## メモ")]) = (Ok tt, fs1)
    /\ main yaml_safe_load lower HOME_SCRIPT fs1 = (Ok tt, fs2)
    /\ fs_lookup fs1 example_target = Some (File page1)
    /\ fs_lookup fs2 example_target = Some (File page2)
    /\ page1 <> page2.
Proof.
  cbv zeta.
  eexists. eexists.
  split; [vm_compute; reflexivity|].
  split; [vm_compute; reflexivity|].
  split; [vm_compute; reflexivity|].
  split; [vm_compute; reflexivity|].
  generalize (existing_tags yaml_safe_load
                (page_content example_title (u "> ## メモ") [] DEFAULT_MEMO)).
  intros ts E. rewrite !page_content_tail in E.
  apply (f_equal (fun l => nth 25 (rev l) 0%N)) in E.
  rewrite !rev_app_distr in E.
  vm_compute in E. discriminate E.
Qed.

(** C10: the names [kyushi_kenpo_1985_s60_q1.txt] and
    [kyushi_kenpo_1985_s60_q01.txt] are two names of the form of the
    description with the same slug [1985_s60_q1.md]; in a run over a
    dataset that holds both, the page of the second is written over the
    page of the first, and the one page left quotes the text of the
    second. *)
Theorem slug_collision_overwrites :
  let name1 := example_name in
  let name2 := u "kyushi_kenpo_1985_s60_q01.txt" in
  let fs := dataset [(name1, u "甲"); (name2, u "乙")] in
  let d := child DATA_DIR (u "kenpo") in
  let page1 := page_content example_title (u "> 甲") [] DEFAULT_MEMO in
  name1 <> name2
  /\ matches_pattern name1 /\ matches_pattern name2
  /\ (exists q1 q2,
         parse_filename (child d name1) fs = (Ok q1, fs)
         /\ parse_filename (child d name2) fs = (Ok q2, fs)
         /\ slug q1 = u "1985_s60_q1.md" /\ slug q2 = u "1985_s60_q1.md"
         /\ text q1 = u "甲" /\ text q2 = u "乙")
  /\ (exists fs',
         main yaml_safe_load lower HOME_SCRIPT fs = (Ok tt, fs')
         /\ entries_of fs' example_output_dir = [example_target]
         /\ fs_lookup fs' example_target
            = Some (File (page_content example_title (u "> 乙")
                            (existing_tags yaml_safe_load page1)
                            DEFAULT_MEMO))).
Proof.
  cbv zeta. split; [discriminate|].
  split.
  { exists example_parts. split; [|reflexivity].
    unfold well_formed_parts, all_digits. cbn.
    repeat split; try discriminate; auto; repeat constructor. }
  split.
  { exists {| np_subject := u "kenpo"; np_year := u "1985";
              np_era := 115%N; np_num2 := u "60"; np_num := u "01" |}.
    split; [|reflexivity].
    unfold well_formed_parts, all_digits. cbn.
    repeat split; try discriminate; auto; repeat constructor. }
  split.
  { eexists. eexists.
    split; [vm_compute; reflexivity|].
    split; [vm_compute; reflexivity|].
    split; [reflexivity|]. split; [reflexivity|].
    split; reflexivity. }
  eexists. split; [vm_compute; reflexivity|].
  split; vm_compute; reflexivity.
Qed.

End Runs.

(* ================================================================== *)
(** * Sorting *)

Section SortFacts.

Variable A : Type.
Variable ltb : A -> A -> bool.

Lemma insert_perm (x : A) (l : list A) :
  Permutation (insert ltb x l) (x :: l).
Proof.
  induction l as [|y l IH]; simpl; [reflexivity|].
  destruct (ltb y x); [|reflexivity].
  rewrite IH. apply perm_swap.
Qed.

Lemma stable_sort_perm (l : list A) : Permutation (stable_sort ltb l) l.
Proof.
  induction l as [|x l IH]; simpl; [reflexivity|].
  rewrite insert_perm. now constructor.
Qed.

(** [x] may stand before [y]: [y < x] does not hold. *)
Hypothesis le_trans :
  forall x y z, ltb y x = false -> ltb z y = false -> ltb z x = false.
Hypothesis lt_asym : forall x y, ltb y x = true -> ltb x y = false.

Lemma insert_sorted (x : A) (l : list A) :
  StronglySorted (fun a b => ltb b a = false) l ->
  StronglySorted (fun a b => ltb b a = false) (insert ltb x l).
Proof.
  induction 1 as [|y l Hs IH Hy]; simpl.
  - repeat constructor.
  - destruct (ltb y x) eqn:E.
    + constructor; [exact IH|].
      eapply Permutation_Forall; [symmetry; apply insert_perm|].
      constructor; [now apply lt_asym|exact Hy].
    + constructor; [now constructor|].
      constructor; [exact E|].
      eapply Forall_impl; [|exact Hy].
      intros z Hz. eapply le_trans; [exact E|exact Hz].
Qed.

Lemma stable_sort_sorted (l : list A) :
  StronglySorted (fun a b => ltb b a = false) (stable_sort ltb l).
Proof.
  induction l as [|x l IH]; simpl; [constructor|].
  now apply insert_sorted.
Qed.

End SortFacts.

Lemma StronglySorted_weaken {A} (R R' : A -> A -> Prop) (l : list A) :
  (forall a b, R a b -> R' a b) -> StronglySorted R l -> StronglySorted R' l.
Proof.
  intros H. induction 1 as [|x l Hs IH Hx]; constructor; [exact IH|].
  eapply Forall_impl; [|exact Hx]. intros b. apply H.
Qed.

(** ** Orders *)


Lemma strict_total_asym {A} (eqb ltb : A -> A -> bool) :
  strict_total eqb ltb ->
  forall x y, ltb y x = true -> ltb x y = false.
Proof.
  intros S x y Hyx. destruct (ltb x y) eqn:Hxy; [|reflexivity].
  pose proof (st_trans S _ _ _ Hxy Hyx) as H.
  rewrite (st_irrefl S) in H. discriminate.
Qed.

Lemma nat_strict_total : strict_total Nat.eqb Nat.ltb.
Proof.
  split.
  - apply Nat.eqb_eq.
  - apply Nat.ltb_irrefl.
  - intros a b c H1 H2. apply Nat.ltb_lt in H1, H2. apply Nat.ltb_lt. lia.
  - intros a b H1 H2. apply Nat.ltb_ge in H1, H2. lia.
Qed.

Lemma Z_strict_total : strict_total Z.eqb Z.ltb.
Proof.
  split.
  - apply Z.eqb_eq.
  - apply Z.ltb_irrefl.
  - intros a b c H1 H2. apply Z.ltb_lt in H1, H2. apply Z.ltb_lt. lia.
  - intros a b H1 H2. apply Z.ltb_ge in H1, H2. lia.
Qed.

Lemma str_strict_total : strict_total str_eqb str_ltb.
Proof.
  split.
  - apply str_eqb_eq.
  - induction a as [|x a IH]; simpl; [reflexivity|].
    now rewrite N.ltb_irrefl.
  - induction a as [|x a IH]; intros [|y b] [|z c] H1 H2;
      simpl in *; try discriminate; try reflexivity.
    destruct (x <? y)%N eqn:Exy.
    + apply N.ltb_lt in Exy.
      destruct (y <? z)%N eqn:Eyz.
      * apply N.ltb_lt in Eyz.
        assert (E : (x <? z)%N = true) by (apply N.ltb_lt; lia).
        now rewrite E.
      * destruct (z <? y)%N eqn:Ezy; [discriminate|].
        apply N.ltb_ge in Eyz, Ezy.
        assert (E : (x <? z)%N = true) by (apply N.ltb_lt; lia).
        now rewrite E.
    + destruct (y <? x)%N eqn:Eyx; [discriminate|].
      apply N.ltb_ge in Exy, Eyx. assert (x = y) by lia. subst y.
      destruct (x <? z)%N; [reflexivity|].
      destruct (z <? x)%N; [discriminate|].
      now apply (IH b c).
  - induction a as [|x a IH]; intros [|y b] H1 H2;
      simpl in *; try discriminate; try reflexivity.
    destruct (x <? y)%N eqn:Exy; [discriminate|].
    destruct (y <? x)%N eqn:Eyx; [discriminate|].
    apply N.ltb_ge in Exy, Eyx. assert (x = y) by lia. subst y.
    f_equal. now apply IH.
Qed.

Lemma pair_strict_total {A B} (eqA ltA : A -> A -> bool)
      (eqB ltB : B -> B -> bool) :
  strict_total eqA ltA -> strict_total eqB ltB ->
  strict_total (pair_eqb eqA eqB) (pair_ltb eqA ltA ltB).
Proof.
  intros SA SB.
  assert (RA : forall a, eqA a a = true) by (intros a; now apply (st_eq SA)).
  split.
  - intros [a b] [a' b']. unfold pair_eqb. cbn [fst snd].
    rewrite andb_true_iff, (st_eq SA), (st_eq SB).
    split; [intros [-> ->]; reflexivity|intros [= -> ->]; auto].
  - intros [a b]. unfold pair_ltb. cbn [fst snd].
    rewrite RA. apply (st_irrefl SB).
  - intros [a b] [a' b'] [a'' b'']. unfold pair_ltb. cbn [fst snd].
    destruct (eqA a a') eqn:E1.
    + apply (st_eq SA) in E1. subst a'.
      destruct (eqA a a''); [apply (st_trans SB)|auto].
    + destruct (eqA a' a'') eqn:E2.
      * apply (st_eq SA) in E2. subst a''. rewrite E1. auto.
      * intros H1 H2. pose proof (st_trans SA _ _ _ H1 H2) as H.
        destruct (eqA a a'') eqn:E3; [|exact H].
        apply (st_eq SA) in E3. subst a''.
        rewrite (strict_total_asym SA _ _ H2) in H1. discriminate.
  - intros [a b] [a' b']. unfold pair_ltb. cbn [fst snd].
    destruct (eqA a a') eqn:E1.
    + apply (st_eq SA) in E1. subst a'. rewrite RA.
      intros H1 H2. f_equal. now apply (st_total SB).
    + destruct (eqA a' a) eqn:E2.
      * apply (st_eq SA) in E2. subst a'. rewrite RA in E1. discriminate.
      * intros H1 H2. rewrite (st_total SA _ _ H1 H2) in E1.
        rewrite RA in E1. discriminate.
Qed.

Lemma subject_key_strict_total : strict_total subject_key_eqb subject_key_ltb.
Proof. apply pair_strict_total; [apply nat_strict_total|apply str_strict_total]. Qed.

Lemma home_key_strict_total :
  strict_total (pair_eqb subject_key_eqb (pair_eqb Z.eqb Z.eqb)) home_key_ltb.
Proof.
  apply pair_strict_total; [apply subject_key_strict_total|].
  apply pair_strict_total; apply Z_strict_total.
Qed.

(* ================================================================== *)
(** * The order of the home table *)






Lemma collect_rows {A B} (f : A -> result B) (l : list A) (rows : list B) :
  collect (map f l) = Ok rows -> Forall2 (fun x r => f x = Ok r) l rows.
Proof.
  revert rows; induction l as [|x l IH]; intros rows H; simpl in H.
  - injection H as <-. constructor.
  - unfold rbind in H. destruct (f x) as [r|e] eqn:E; [|discriminate].
    destruct (collect (map f l)) as [rs|e]; [|discriminate].
    injection H as <-. constructor; [exact E|now apply IH].
Qed.

Section HomeTable.

Variable lower : str -> str.
Variable HOME_SCRIPT : str.


End HomeTable.

(* ================================================================== *)
(** * The sorting script *)

Module HomeScriptFacts.
Import HomeScript.

(** The sort order a direction asks for. *)
Lemma js_sort_perm (cmp : tr -> tr -> Z) (l : list tr) :
  Permutation (js_sort cmp l) l.
Proof. apply stable_sort_perm. Qed.

Lemma js_sort_ascending (h : th) (l : list tr) :
  StronglySorted (fun a b => (sort_value h a <= sort_value h b)%Z)
                 (js_sort (fun a b => compare a b h) l).
Proof.
  apply StronglySorted_weaken
    with (R := fun a b => (compare b a h <? 0)%Z = false).
  - intros a b H. apply Z.ltb_ge in H. destruct h; cbn in *; lia.
  - apply (stable_sort_sorted (fun a b => (compare a b h <? 0)%Z)).
    + intros x y z H1 H2. apply Z.ltb_ge in H1, H2. apply Z.ltb_ge.
      destruct h; cbn in *; lia.
    + intros x y H. apply Z.ltb_lt in H. apply Z.ltb_ge.
      destruct h; cbn in *; lia.
Qed.

Lemma js_sort_descending (h : th) (l : list tr) :
  StronglySorted (fun a b => (sort_value h a >= sort_value h b)%Z)
                 (js_sort (fun a b => (- compare a b h)%Z) l).
Proof.
  apply StronglySorted_weaken
    with (R := fun a b => (- compare b a h <? 0)%Z = false).
  - intros a b H. apply Z.ltb_ge in H. destruct h; cbn in *; lia.
  - apply (stable_sort_sorted (fun a b => (- compare a b h <? 0)%Z)).
    + intros x y z H1 H2. apply Z.ltb_ge in H1, H2. apply Z.ltb_ge.
      destruct h; cbn in *; lia.
    + intros x y H. apply Z.ltb_lt in H. apply Z.ltb_ge.
      destruct h; cbn in *; lia.
Qed.

(** Appending every row of [l] in turn leaves the rows of [l] in the
    order of [l], after the children that are not among them. *)
Lemma appendChild_all (l children : list tr) :
  NoDup (map node l) ->
  fold_left appendChild l children
  = filter (fun r => negb (existsb (Nat.eqb (node r)) (map node l)))
           children ++ l.
Proof.
  revert children; induction l as [|x l IH]; intros children Hd.
  - simpl. rewrite app_nil_r. clear. induction children; simpl; congruence.
  - inversion Hd as [|? ? Hx Hl]; subst.
    cbn [fold_left]. rewrite (IH _ Hl). unfold appendChild.
    rewrite filter_app. cbn [filter].
    assert (E : existsb (Nat.eqb (node x)) (map node l) = false).
    { destruct (existsb (Nat.eqb (node x)) (map node l)) eqn:E;
        [|reflexivity].
      apply existsb_exists in E as (y & Hy & E).
      apply Nat.eqb_eq in E. subst y. contradiction. }
    rewrite E. cbn [negb]. rewrite <- app_assoc. cbn [app]. f_equal.
    clear. induction children as [|c cs IHc]; [reflexivity|].
    cbn [filter map existsb].
    destruct (node c =? node x)%nat; cbn [negb orb filter];
      [exact IHc|].
    destruct (existsb (Nat.eqb (node c)) (map node l)); cbn [negb];
      [exact IHc|now rewrite IHc].
Qed.

Lemma appendChild_sorted (sorted children : list tr) :
  NoDup (map node sorted) ->
  (forall r, In r children -> In (node r) (map node sorted)) ->
  fold_left appendChild sorted children = sorted.
Proof.
  intros Hd Hc. rewrite (@appendChild_all sorted children Hd).
  replace (filter _ children) with (@nil tr); [reflexivity|].
  symmetry. clear Hd. induction children as [|c cs IH]; [reflexivity|].
  cbn [filter].
  assert (E : existsb (Nat.eqb (node c)) (map node sorted) = true).
  { apply existsb_exists. exists (node c).
    split; [apply Hc; now left|apply Nat.eqb_refl]. }
  rewrite E. cbn [negb]. apply IH. intros r Hr. apply Hc. now right.
Qed.

Lemma click_rows (h : th) (d : document) : rows (click h d) = rows d.
Proof. reflexivity. Qed.

Lemma click_tbody (h : th) (d : document) :
  well_formed d ->
  tbody (click h d)
  = js_sort (fun a b =>
               match dir (sortState (click h d)) with
               | Asc => compare a b h
               | Desc => (- compare a b h)%Z
               end) (rows d).
Proof.
  intros [Hd Hc]. unfold click. cbn [tbody sortState dir].
  apply appendChild_sorted.
  - eapply Permutation_NoDup; [|exact Hd].
    apply Permutation_map. symmetry. apply js_sort_perm.
  - intros r Hr. eapply Permutation_in; [|exact (Hc r Hr)].
    apply Permutation_map. symmetry. apply js_sort_perm.
Qed.

Lemma click_well_formed (h : th) (d : document) :
  well_formed d -> well_formed (click h d).
Proof.
  intros W. pose proof W as [Hd Hc]. split; [exact Hd|].
  intros r Hr. rewrite (@click_tbody h d W) in Hr. rewrite click_rows.
  apply in_map. eapply Permutation_in; [apply js_sort_perm|exact Hr].
Qed.

Lemma clicks_well_formed (n : nat) (h : th) (d : document) :
  well_formed d -> well_formed (clicks n h d).
Proof.
  intros W. induction n as [|n IH]; [exact W|].
  cbn [clicks]. now apply click_well_formed.
Qed.

Lemma clicks_rows (n : nat) (h : th) (d : document) :
  rows (clicks n h d) = rows d.
Proof. induction n as [|n IH]; [reflexivity|exact IH]. Qed.

Lemma key_eqb_eq (a b : sort_key) : key_eqb a b = true <-> a = b.
Proof. destruct a, b; simpl; split; congruence. Qed.

Lemma clicks_state (n : nat) (h : th) (d : document) :
  key (sortState d) <> data_sort h ->
  sortState (clicks (S n) h d)
  = {| key := data_sort h; dir := if Nat.even n then Asc else Desc |}.
Proof.
  intros Hk. induction n as [|n IH].
  - cbn [clicks]. unfold click. cbn [sortState].
    destruct (key_eqb (key (sortState d)) (data_sort h)) eqn:E;
      [|reflexivity].
    apply key_eqb_eq in E. contradiction.
  - change (clicks (S (S n)) h d) with (click h (clicks (S n) h d)).
    unfold click at 1. cbn [sortState]. rewrite IH. cbn [key dir].
    assert (R : key_eqb (data_sort h) (data_sort h) = true)
      by now apply key_eqb_eq.
    rewrite R. rewrite Nat.even_succ, <- Nat.negb_even.
    destruct (Nat.even n); reflexivity.
Qed.

(** C9: on a page whose sort state is not on the column of a header,
    as when the page is loaded, clicking that header again and again
    sorts the rows of the table by the value of the column, ascending
    after the first click and in the other direction after each further
    click: ascending after an odd number of clicks, descending after an
    even number. *)
Theorem clicks_toggle_direction (h : th) (d : document) (n : nat) :
  well_formed d ->
  key (sortState d) <> data_sort h ->
  sortState (clicks (S n) h d)
  = {| key := data_sort h; dir := if Nat.even n then Asc else Desc |}
  /\ Permutation (tbody (clicks (S n) h d)) (rows d)
  /\ if Nat.even n
     then StronglySorted
            (fun a b => (sort_value h a <= sort_value h b)%Z)
            (tbody (clicks (S n) h d))
     else StronglySorted
            (fun a b => (sort_value h a >= sort_value h b)%Z)
            (tbody (clicks (S n) h d)).
Proof.
  intros W Hk. pose proof (@clicks_state n h d Hk) as St.
  split; [exact St|].
  cbn [clicks] in *.
  rewrite (@click_tbody h _ (@clicks_well_formed n h d W)), St, clicks_rows.
  cbn [dir]. split.
  - apply js_sort_perm.
  - destruct (Nat.even n).
    + apply js_sort_ascending.
    + apply js_sort_descending.
Qed.

(** Three rows, clicked once and twice on the year header. *)
Lemma clicks_toggle_direction_witness :
  tbody (clicks 1 ThYear (loaded example_rows))
  = [ {| node := 1; data_year := 1985; data_q := 1 |};
      {| node := 2; data_year := 1985; data_q := 2 |};
      {| node := 0; data_year := 1990; data_q := 1 |} ]
  /\ tbody (clicks 2 ThYear (loaded example_rows))
     = [ {| node := 0; data_year := 1990; data_q := 1 |};
         {| node := 1; data_year := 1985; data_q := 1 |};
         {| node := 2; data_year := 1985; data_q := 2 |} ]
  /\ StronglySorted (fun a b => (data_year a >= data_year b)%Z)
                    (tbody (clicks 2 ThYear (loaded example_rows))).
Proof.
  split; [reflexivity|]. split; [reflexivity|].
  refine (proj2 (proj2 (@clicks_toggle_direction
                          ThYear (loaded example_rows) 1 _ _))).
  - split.
    + cbn. repeat constructor; cbn; intuition discriminate.
    + intros r Hr. apply in_map. exact Hr.
  - discriminate.
Defined.

End HomeScriptFacts.

(* ================================================================== *)
(** * What a run leaves alone *)

Lemma outside_same_refl (d : path) (fs : filesystem) : outside_same d fs fs.
Proof. split; reflexivity. Qed.

Lemma outside_same_trans (d : path) (fs1 fs2 fs3 : filesystem) :
  outside_same d fs1 fs2 -> outside_same d fs2 fs3 -> outside_same d fs1 fs3.
Proof.
  intros [L1 E1] [L2 E2]. split.
  - intros p Hp. now rewrite L2, L1.
  - intros e He Hn. now rewrite E2, E1.
Qed.

Lemma path_under_refl (d : path) : path_under d d.
Proof. exists []. now rewrite app_nil_r. Qed.

Lemma path_under_child (d p : path) (name : str) :
  path_under d p -> path_under d (child p name).
Proof.
  intros [rest ->]. exists (rest ++ [name]). unfold child.
  now rewrite app_assoc.
Qed.

Lemma parent_under (d p : path) :
  path_under d p -> p <> d -> path_under d (parent p).
Proof.
  intros [rest ->] Hne. destruct rest as [|x rest] using rev_ind.
  - rewrite app_nil_r in Hne. contradiction.
  - exists rest. unfold parent. now rewrite app_assoc, removelast_last.
Qed.

Lemma entries_of_set (fs : filesystem) (p e : path) (n : node) :
  parent p <> e -> entries_of (fs_set fs p n) e = entries_of fs e.
Proof.
  intros Hne.
  assert (T : match p with
              | [] => false
              | _ :: _ => path_eqb (parent p) e
              end = false).
  { destruct p; [reflexivity|].
    destruct (path_eqb (parent (s :: p)) e) eqn:E; [|reflexivity].
    apply path_eqb_eq in E. contradiction. }
  unfold entries_of. induction fs as [|[p' n'] fs IH]; cbn [fs_set].
  - cbn [filter fst]. now rewrite T.
  - destruct (path_eqb p' p) eqn:E.
    + apply path_eqb_eq in E. subst p'. cbn [filter fst]. now rewrite T.
    + cbn [filter fst]. destruct (match p' with
                                  | [] => false
                                  | _ :: _ => path_eqb (parent p') e
                                  end); cbn [map]; now rewrite IH.
Qed.

(** Setting what a path in the tree of [d] holds changes nothing
    outside. *)
Lemma outside_same_set (d : path) (fs : filesystem) (p : path) (n : node) :
  path_under d p -> outside_same d fs (fs_set fs p n).
Proof.
  intros Hp. split.
  - intros q Hq. apply fs_lookup_set_other. intros ->. contradiction.
  - intros e He Hn. apply entries_of_set. intros E.
    destruct (list_eq_dec (list_eq_dec N.eq_dec) p d) as [->|Hpd].
    + congruence.
    + apply He. rewrite <- E. now apply parent_under.
Qed.

Lemma keeps_outside_ret (d : path) {A} (a : A) : keeps_outside d (ret a).
Proof. intros fs. apply outside_same_refl. Qed.

Lemma keeps_outside_raise (d : path) {A} (e : exn) :
  keeps_outside d (@raise A e).
Proof. intros fs. apply outside_same_refl. Qed.

Lemma keeps_outside_lift (d : path) {A} (r : result A) :
  keeps_outside d (lift r).
Proof. intros fs. apply outside_same_refl. Qed.

Lemma keeps_outside_bind (d : path) {A B} (m : M A) (k : A -> M B) :
  keeps_outside d m -> (forall a, keeps_outside d (k a)) ->
  keeps_outside d (bind m k).
Proof.
  intros Hm Hk fs. unfold bind. specialize (Hm fs).
  destruct (m fs) as [[a|e] fs1]; cbn [snd] in *; [|exact Hm].
  eapply outside_same_trans; [exact Hm|apply Hk].
Qed.

Lemma keeps_outside_exists (d p : path) : keeps_outside d (exists_ p).
Proof. intros fs. apply outside_same_refl. Qed.

Lemma keeps_outside_is_dir (d p : path) : keeps_outside d (is_dir p).
Proof. intros fs. apply outside_same_refl. Qed.

Lemma keeps_outside_read_text (d p : path) : keeps_outside d (read_text p).
Proof.
  intros fs. unfold read_text.
  destruct (fs_lookup fs p) as [[|c|]|]; apply outside_same_refl.
Qed.

Lemma keeps_outside_iterdir (d p : path) : keeps_outside d (iterdir p).
Proof.
  intros fs. unfold iterdir.
  destruct (fs_lookup fs p) as [[|c|]|]; apply outside_same_refl.
Qed.

Lemma keeps_outside_glob (d p : path) : keeps_outside d (glob p).
Proof.
  intros fs. unfold glob.
  destruct (fs_lookup fs p) as [[|c|]|]; apply outside_same_refl.
Qed.

Lemma keeps_outside_write_text (d p : path) (content : str) :
  path_under d p -> keeps_outside d (write_text p content).
Proof.
  intros Hp fs. unfold write_text.
  destruct (fs_lookup fs p) as [[|c|]|];
    try apply outside_same_refl;
    destruct (fs_lookup fs (parent p)) as [[|c'|]|]; cbn [snd];
      try apply outside_same_refl; now apply outside_same_set.
Qed.

Lemma keeps_outside_mkdir (d p : path) :
  path_under d p -> keeps_outside d (mkdir p).
Proof.
  intros Hp fs. unfold mkdir.
  destruct (fs_lookup fs p) as [[|c|]|];
    try apply outside_same_refl;
    destruct (fs_lookup fs (parent p)) as [[|c'|]|]; cbn [snd];
      try apply outside_same_refl; now apply outside_same_set.
Qed.

Lemma keeps_outside_mkdir_ancestor (d p : path) :
  path_under d p -> keeps_outside d (mkdir_ancestor p).
Proof.
  intros Hp fs. unfold mkdir_ancestor.
  destruct (fs_lookup fs p) as [[|c|]|] eqn:E;
    try apply outside_same_refl; now apply keeps_outside_mkdir.
Qed.

Lemma keeps_outside_mkdir_below (d above : path) (names : list str) :
  (forall k, (0 < k <= List.length names)%nat ->
             path_under d (above ++ firstn k names)) ->
  keeps_outside d (mkdir_below above names).
Proof.
  revert above; induction names as [|n names IH]; intros above H.
  - apply keeps_outside_ret.
  - assert (H1 : path_under d (child above n)).
    { apply (H 1%nat). simpl. lia. }
    destruct names as [|n2 names].
    + now apply keeps_outside_mkdir.
    + change (mkdir_below above (n :: n2 :: names))
        with (bind (mkdir_ancestor (child above n))
                   (fun _ => mkdir_below (child above n) (n2 :: names))).
      apply keeps_outside_bind; [now apply keeps_outside_mkdir_ancestor|].
      intros _. apply IH. intros k Hk.
      specialize (H (S k)). unfold child. rewrite <- app_assoc.
      apply H. simpl in *. lia.
Qed.

Lemma keeps_outside_parse_filename (d p : path) :
  keeps_outside d (parse_filename p).
Proof.
  unfold parse_filename.
  destruct (match_filename (name_of p)); [|apply keeps_outside_raise].
  apply keeps_outside_bind; [apply keeps_outside_lift|intros yr].
  apply keeps_outside_bind; [apply keeps_outside_lift|intros qn].
  apply keeps_outside_bind; [apply keeps_outside_read_text|intros c].
  apply keeps_outside_ret.
Qed.

Section Outside.

Variable yaml_safe_load : yaml_loader.
Variable lower : str -> str.
Variable HOME_SCRIPT : str.

Lemma keeps_outside_read_existing (d p : path) :
  keeps_outside d (read_existing_tags_and_memo yaml_safe_load p).
Proof.
  unfold read_existing_tags_and_memo.
  apply keeps_outside_bind; [apply keeps_outside_exists|intros b].
  destruct (negb b); [apply keeps_outside_ret|].
  apply keeps_outside_bind; [apply keeps_outside_read_text|intros c].
  apply keeps_outside_ret.
Qed.

Lemma keeps_outside_write_question_page (d target : path) (q : Question) :
  path_under d target ->
  keeps_outside d (write_question_page yaml_safe_load target q).
Proof.
  intros Ht. unfold write_question_page.
  apply keeps_outside_bind; [apply keeps_outside_lift|intros title].
  apply keeps_outside_bind; [apply keeps_outside_read_existing|intros tm].
  apply keeps_outside_bind; [now apply keeps_outside_write_text|intros _].
  apply keeps_outside_ret.
Qed.

Lemma keeps_outside_write_home (all_questions : list Question) :
  keeps_outside DOCS_DIR (write_home lower HOME_SCRIPT all_questions).
Proof.
  unfold write_home.
  apply keeps_outside_bind; [apply keeps_outside_lift|intros content].
  apply keeps_outside_write_text, path_under_child, path_under_refl.
Qed.

Lemma keeps_outside_process_files
      (code : str) (txt_files : list path) (all_questions : list Question) :
  keeps_outside DOCS_DIR
    (process_files yaml_safe_load (child DOCS_DIR code) txt_files all_questions).
Proof.
  revert all_questions; induction txt_files as [|f rest IH]; intros acc.
  - apply keeps_outside_ret.
  - cbn [process_files]. apply keeps_outside_bind; [|intros acc'; apply IH].
    unfold process_file.
    apply keeps_outside_bind; [apply keeps_outside_parse_filename|intros q].
    apply keeps_outside_bind; [|intros q'; apply keeps_outside_ret].
    apply keeps_outside_write_question_page.
    apply path_under_child, path_under_child, path_under_refl.
Qed.

Lemma keeps_outside_process_subject
      (subject_dir : path) (all_questions : list Question) :
  keeps_outside DOCS_DIR
    (process_subject yaml_safe_load subject_dir all_questions).
Proof.
  unfold process_subject.
  apply keeps_outside_bind; [apply keeps_outside_is_dir|intros b].
  destruct (negb b); [apply keeps_outside_ret|].
  apply keeps_outside_bind.
  - unfold ensure_empty_subject_dir, mkdir_parents.
    apply keeps_outside_mkdir_below. intros k Hk. cbn [app].
    destruct k as [|[|[|k]]]; cbn in Hk; try lia.
    + apply path_under_refl.
    + apply (path_under_child (name_of subject_dir) (path_under_refl DOCS_DIR)).
  - intros _. apply keeps_outside_bind; [apply keeps_outside_glob|].
    intros files. apply keeps_outside_process_files.
Qed.

Lemma keeps_outside_process_subjects
      (subject_dirs : list path) (all_questions : list Question) :
  keeps_outside DOCS_DIR
    (process_subjects yaml_safe_load subject_dirs all_questions).
Proof.
  revert all_questions; induction subject_dirs as [|s rest IH]; intros acc.
  - apply keeps_outside_ret.
  - cbn [process_subjects].
    apply keeps_outside_bind; [apply keeps_outside_process_subject|].
    intros acc'. apply IH.
Qed.

Lemma keeps_outside_main :
  keeps_outside DOCS_DIR (main yaml_safe_load lower HOME_SCRIPT).
Proof.
  unfold main.
  apply keeps_outside_bind; [apply keeps_outside_exists|intros b].
  destruct (negb b); [apply keeps_outside_raise|].
  apply keeps_outside_bind;
    [apply keeps_outside_mkdir, path_under_refl|intros _].
  apply keeps_outside_bind; [apply keeps_outside_iterdir|intros dirs].
  apply keeps_outside_bind; [apply keeps_outside_process_subjects|].
  intros all. apply keeps_outside_write_home.
Qed.

(** X1: whether a run ends normally or raises, it changes nothing
    outside the output directory [docs]: every path outside holds what it
    held before, and every dataset directory lists the same entries in
    the same order. *)
Theorem main_changes_only_docs (fs : filesystem) (p : path) :
  ~ path_under DOCS_DIR p ->
  fs_lookup (snd (main yaml_safe_load lower HOME_SCRIPT fs)) p
  = fs_lookup fs p
  /\ (p <> [] ->
      entries_of (snd (main yaml_safe_load lower HOME_SCRIPT fs)) p
      = entries_of fs p).
Proof.
  intros Hp. destruct (keeps_outside_main fs) as [L E].
  split; [now apply L|]. intros Hne. now apply E.
Qed.

End Outside.

Lemma main_changes_only_docs_witness :
  fs_lookup (snd (main plain_loader (fun s => s) []
                       (dataset [(example_name, u "問題文")])))
            (child (child DATA_DIR (u "kenpo")) example_name)
  = Some (File (u "問題文")).
Proof.
  refine (eq_trans
            (proj1 (@main_changes_only_docs
                      plain_loader (fun s => s) []
                      (dataset [(example_name, u "問題文")])
                      (child (child DATA_DIR (u "kenpo")) example_name) _))
            _).
  - intros [rest E]. discriminate E.
  - reflexivity.
Defined.

(* ================================================================== *)
(** * A name that is not expected stops the run *)

Lemma entries_of_In (fs : filesystem) (e d : path) :
  In d (entries_of fs e) -> d <> [] /\ parent d = e.
Proof.
  unfold entries_of. intros H. apply in_map_iff in H as ([p n] & <- & H).
  apply filter_In in H as [_ H]. cbn [fst] in *.
  destruct p as [|x p]; [discriminate|].
  apply path_eqb_eq in H. split; [discriminate|exact H].
Qed.

Lemma dataset_entry_outside (d : path) :
  d <> [] -> parent d = DATA_DIR -> ~ path_under DOCS_DIR d.
Proof.
  intros Hne Hp [rest E].
  destruct (exists_last Hne) as (l & a & ->).
  unfold parent in Hp. rewrite removelast_last in Hp. subst l.
  discriminate E.
Qed.

Section FailFast.

Variable yaml_safe_load : yaml_loader.
Variable lower : str -> str.
Variable HOME_SCRIPT : str.

Lemma process_files_unexpected_name
      (output_dir : path) (txt_files : list path) (f : path) :
  In f txt_files -> match_filename (name_of f) = None ->
  forall all_questions fs,
  exists e fs',
    process_files yaml_safe_load output_dir txt_files all_questions fs
    = (Raise e, fs').
Proof.
  intros Hin Hbad. induction txt_files as [|f0 rest IH]; [contradiction|].
  intros acc fs. cbn [process_files]. unfold bind at 1.
  destruct Hin as [->|Hin].
  - unfold process_file, bind, parse_filename. rewrite Hbad.
    unfold raise. eauto.
  - destruct (process_file yaml_safe_load output_dir f0 acc fs)
      as [[acc'|e] fs1]; [now apply IH|eauto].
Qed.

Lemma process_subjects_unexpected_name
      (fs0 : filesystem) (d f : path) (subject_dirs : list path) :
  In d subject_dirs ->
  d <> [] -> parent d = DATA_DIR ->
  fs_lookup fs0 d = Some Dir ->
  In f (entries_of fs0 d) ->
  glob_kyushi_txt (name_of f) = true ->
  match_filename (name_of f) = None ->
  forall all_questions fs,
    outside_same DOCS_DIR fs0 fs ->
    exists e fs',
      process_subjects yaml_safe_load subject_dirs all_questions fs
      = (Raise e, fs').
Proof.
  intros Hin Hd Hpd Hdir Hf Hglob Hbad.
  pose proof (dataset_entry_outside Hd Hpd) as Hout.
  induction subject_dirs as [|d0 rest IH]; [contradiction|].
  intros acc fs Hsame. cbn [process_subjects]. unfold bind at 1.
  destruct Hin as [->|Hin].
  - unfold process_subject, bind at 1, is_dir.
    destruct Hsame as [L E]. rewrite (L d Hout), Hdir. cbn [negb].
    unfold bind at 1.
    pose proof (keeps_outside_mkdir_below
                  (d := DOCS_DIR) [] (child DOCS_DIR (name_of d))) as K.
    unfold ensure_empty_subject_dir, mkdir_parents.
    assert (Kd : keeps_outside DOCS_DIR
                   (mkdir_below [] (child DOCS_DIR (name_of d)))).
    { apply K. intros k Hk. cbn [app].
      destruct k as [|[|[|k]]]; cbn in Hk; try lia.
      - apply path_under_refl.
      - apply (path_under_child (name_of d) (path_under_refl DOCS_DIR)). }
    specialize (Kd fs).
    destruct (mkdir_below [] (child DOCS_DIR (name_of d)) fs)
      as [[[]|e] fs1]; [|eauto].
    cbn [snd] in Kd. destruct Kd as [L1 E1].
    unfold bind at 1, glob.
    rewrite (L1 d Hout), (L d Hout), Hdir.
    rewrite (E1 d Hout), (E d Hout) by (cbn; exact Hd).
    destruct (@process_files_unexpected_name
                (child DOCS_DIR (name_of d))
                (filter (fun p => glob_kyushi_txt (name_of p))
                        (entries_of fs0 d)) f) with (all_questions := acc)
                (fs := fs1) as (e & fs' & R).
    + apply filter_In. split; assumption.
    + exact Hbad.
    + rewrite R. eauto.
  - pose proof (keeps_outside_process_subject yaml_safe_load d0 acc fs) as K.
    destruct (process_subject yaml_safe_load d0 acc fs)
      as [[acc'|e] fs1]; [|eauto].
    apply IH; [exact Hin|].
    eapply outside_same_trans; [exact Hsame|exact K].
Qed.

(** X2: when the dataset directory holds a directory with an entry
    [kyushi_*.txt] whose name the pattern of [parse_filename] does not
    match, the run raises: it does not end normally, whatever else the
    dataset holds. *)
Theorem main_aborts_on_unexpected_name (fs : filesystem) (d f : path) :
  fs_lookup fs DATA_DIR = Some Dir ->
  In d (entries_of fs DATA_DIR) ->
  fs_lookup fs d = Some Dir ->
  In f (entries_of fs d) ->
  glob_kyushi_txt (name_of f) = true ->
  match_filename (name_of f) = None ->
  exists e fs', main yaml_safe_load lower HOME_SCRIPT fs = (Raise e, fs').
Proof.
  intros Hdata Hd Hdir Hf Hglob Hbad.
  apply entries_of_In in Hd as Hd'. destruct Hd' as [Hne Hpd].
  assert (Hout : ~ path_under DOCS_DIR DATA_DIR).
  { intros [rest E]. discriminate E. }
  unfold main, bind at 1, exists_. rewrite Hdata. cbn [negb].
  unfold bind at 1.
  pose proof (@keeps_outside_mkdir DOCS_DIR DOCS_DIR
                (path_under_refl DOCS_DIR) fs) as K.
  destruct (mkdir DOCS_DIR fs) as [[[]|e] fs1]; [|eauto].
  cbn [snd] in K. pose proof K as [L E].
  unfold bind at 1, iterdir. rewrite (L _ Hout), Hdata.
  rewrite (E _ Hout) by discriminate.
  unfold bind at 1.
  destruct (@process_subjects_unexpected_name
              fs d f (entries_of fs DATA_DIR) Hd Hne Hpd Hdir Hf Hglob Hbad
              [] fs1 K) as (e & fs' & R).
  rewrite R. eauto.
Qed.

End FailFast.

Lemma main_aborts_on_unexpected_name_witness :
  exists e fs',
    main plain_loader (fun s => s) []
         (dataset [(example_name, u "問題文"); (u "kyushi_memo.txt", u "x")])
    = (Raise e, fs').
Proof.
  refine (@main_aborts_on_unexpected_name
            plain_loader (fun s => s) []
            (dataset [(example_name, u "問題文"); (u "kyushi_memo.txt", u "x")])
            (child DATA_DIR (u "kenpo"))
            (child (child DATA_DIR (u "kenpo")) (u "kyushi_memo.txt"))
            _ _ _ _ _ _); try reflexivity.
  - vm_compute. left. reflexivity.
  - vm_compute. right. left. reflexivity.
Defined.

(* ================================================================== *)
(** * The questions [parse_filename] returns *)

(** What the groups of a match are. *)
Lemma match_filename_groups (name : str) (g : filename_groups) :
  match_filename name = Some g ->
  exists x,
    well_formed_parts x
    /\ (name = name_from x \/ name = name_from x ++ [LF])
    /\ g = {| g_subject := np_subject x; g_year := np_year x;
              g_era := np_era x :: np_num2 x; g_qnum := np_num x |}.
Proof.
  unfold match_filename. intros H.
  destruct (expect (u "kyushi_") name) as [r1|] eqn:E1; [|discriminate].
  cbn [obind] in H.
  destruct (span is_lower_az r1) as [subj r2] eqn:E2.
  destruct subj as [|s0 ss]; [discriminate|].
  destruct (expect (u "_") r2) as [r3|] eqn:E3; [|discriminate].
  cbn [obind] in H.
  destruct (digits_n 4 r3) as [[yr r3']|] eqn:E4; [|discriminate].
  cbn [obind snd fst] in H.
  destruct (expect (u "_") r3') as [r4|] eqn:E5; [|discriminate].
  cbn [obind] in H.
  destruct r4 as [|e r5]; [discriminate|].
  destruct ((e =? 115) || (e =? 104))%N eqn:Ee; [|discriminate].
  destruct (digits_n 2 r5) as [[en r5']|] eqn:E6; [|discriminate].
  cbn [obind snd fst] in H.
  destruct (expect (u "_q") r5') as [r6|] eqn:E7; [|discriminate].
  cbn [obind] in H.
  destruct (span is_digit r6) as [qn r7] eqn:E8.
  destruct qn as [|n0 ns]; [discriminate|].
  destruct (expect (u ".txt") r7) as [r8|] eqn:E9; [|discriminate].
  cbn [obind] in H.
  destruct (at_end r8) eqn:E10; [|discriminate].
  injection H as <-.
  apply expect_inv in E1, E3, E5, E7, E9.
  apply span_inv in E2 as (-> & Hsl & _), E8 as (-> & Hqd & _).
  apply digits_n_inv in E4 as (-> & Hy4 & Hyd), E6 as (-> & Hn2 & Hn2d).
  subst.
  exists {| np_subject := s0 :: ss; np_year := yr; np_era := e;
            np_num2 := en; np_num := n0 :: ns |}.
  split.
  { unfold well_formed_parts; cbn.
    repeat split; try assumption; try discriminate.
    apply orb_true_iff in Ee as [Ee|Ee]; apply N.eqb_eq in Ee; auto. }
  split; [|reflexivity].
  unfold name_from; cbn [np_subject np_year np_era np_num2 np_num].
  destruct r8 as [|c [|? ?]]; try discriminate.
  - left. rewrite app_nil_r. repeat rewrite <- app_assoc. reflexivity.
  - right. simpl in E10. apply N.eqb_eq in E10. subst c.
    repeat rewrite <- app_assoc. reflexivity.
Qed.

Lemma decimal_in_range (zeros : list char) (c : char) (d : Z) :
  decimal_in zeros c = Some d -> (0 <= d <= 9)%Z.
Proof.
  induction zeros as [|z zs IH]; simpl; [discriminate|].
  destruct ((z <=? c) && (c <? z + 10))%N eqn:E; [|exact IH].
  intros [= <-]. apply andb_true_iff in E as [E1 E2].
  apply N.leb_le in E1. apply N.ltb_lt in E2. lia.
Qed.

Lemma decimal_number_bounds (ds : str) :
  all_digits ds ->
  (0 <= decimal_number ds < 10 ^ Z.of_nat (List.length ds))%Z.
Proof.
  intros H. unfold decimal_number.
  assert (G : forall acc, (0 <= acc)%Z ->
            (acc * 10 ^ Z.of_nat (List.length ds)
             <= fold_left (fun a c => match decimal_value c with
                                      | Some d => 10 * a + d
                                      | None => a
                                      end) ds acc
             < acc * 10 ^ Z.of_nat (List.length ds)
               + 10 ^ Z.of_nat (List.length ds))%Z).
  { induction H as [|c ds Hc Hds IH]; intros acc Hacc.
    - simpl. lia.
    - cbn [fold_left List.length]. unfold is_digit in Hc.
      destruct (decimal_value c) as [d|] eqn:Ed; [|discriminate].
      apply decimal_in_range in Ed.
      rewrite Nat2Z.inj_succ, Z.pow_succ_r by lia.
      specialize (IH (10 * acc + d)%Z ltac:(lia)).
      assert (0 < 10 ^ Z.of_nat (List.length ds))%Z
        by (apply Z.pow_pos_nonneg; lia).
      nia. }
  specialize (G 0%Z ltac:(lia)). lia.
Qed.

Lemma parse_filename_ok (p : path) (fs fs' : filesystem) (q : Question) :
  parse_filename p fs = (Ok q, fs') ->
  fs' = fs
  /\ exists x content,
      well_formed_parts x
      /\ (name_of p = name_from x \/ name_of p = name_from x ++ [LF])
      /\ fs_lookup fs p = Some (File content)
      /\ q = {| subject := np_subject x;
                subject_label :=
                  dict_get_default SUBJECT_NAMES (np_subject x) (np_subject x);
                year := decimal_number (np_year x);
                era_code := np_era x :: np_num2 x;
                qnum := decimal_number (np_num x);
                text := strip_chars [LF] content;
                slug := str_of_int (decimal_number (np_year x)) ++ u "_"
                        ++ (np_era x :: np_num2 x) ++ u "_q"
                        ++ str_of_int (decimal_number (np_num x)) ++ u ".md";
                source := u "kyushi-ronbun/" ++ np_subject x ++ u "/"
                          ++ name_of p;
                tags := [] |}.
Proof.
  unfold parse_filename. intros H.
  destruct (match_filename (name_of p)) as [g|] eqn:Em; [|discriminate].
  apply match_filename_groups in Em as (x & W & Hname & ->).
  pose proof W as (_ & _ & Hy4 & Hyd & _ & _ & _ & Hq & Hqd).
  cbn [g_subject g_year g_era g_qnum] in H. unfold int_or_raise in H.
  rewrite (@int_digits (np_year x)) in H;
    [|destruct (np_year x); discriminate|exact Hyd].
  rewrite (int_digits Hq Hqd) in H.
  unfold bind, lift, read_text, ret in H.
  destruct (fs_lookup fs p) as [[|content|]|] eqn:Ef; try discriminate.
  injection H as <- <-. split; [reflexivity|].
  exists x, content. auto.
Qed.

(** X3: a question [parse_filename] returns has no tags, a subject code
    of lower-case letters, a year from 0 to 9999, a question number that
    is not negative, an era code made of [s] or [h] and two digits, and
    the slug [{year}_{era_code}_q{qnum}.md] of its own fields; the files
    are left as they were. *)
Theorem parsed_question_invariants
        (p : path) (fs fs' : filesystem) (q : Question) :
  parse_filename p fs = (Ok q, fs') ->
  fs' = fs
  /\ tags q = []
  /\ subject q <> [] /\ Forall (fun c => is_lower_az c = true) (subject q)
  /\ (0 <= year q <= 9999)%Z
  /\ (0 <= qnum q)%Z
  /\ (exists e d1 d2,
         era_code q = [e; d1; d2] /\ (e = 115%N \/ e = 104%N)
         /\ is_digit d1 = true /\ is_digit d2 = true)
  /\ slug q = str_of_int (year q) ++ u "_" ++ era_code q ++ u "_q"
              ++ str_of_int (qnum q) ++ u ".md".
Proof.
  intros Hparse.
  destruct (parse_filename_ok _ _ Hparse)
    as (-> & x & content & W & _ & _ & ->).
  destruct W as (Hs & Hsl & Hy4 & Hyd & He & Hn2 & Hn2d & Hq & Hqd).
  cbn [tags subject year qnum era_code slug].
  split; [reflexivity|]. split; [reflexivity|].
  split; [exact Hs|]. split; [exact Hsl|].
  split.
  { pose proof (decimal_number_bounds Hyd) as B. rewrite Hy4 in B.
    change (10 ^ Z.of_nat 4)%Z with 10000%Z in B. lia. }
  split; [apply (decimal_number_bounds Hqd)|].
  split; [|reflexivity].
  destruct (np_num2 x) as [|d1 [|d2 [|d3 r]]]; try discriminate.
  inversion Hn2d as [|? ? A1 A2]; subst. inversion A2; subst.
  exists (np_era x), d1, d2. auto.
Qed.

(** ** The text of a question *)

Lemma lstrip_by_split (drop : char -> bool) (s : str) :
  exists lead,
    s = lead ++ lstrip_by drop s
    /\ Forall (fun c => drop c = true) lead
    /\ match lstrip_by drop s with
       | [] => True
       | c :: _ => drop c = false
       end.
Proof.
  induction s as [|c s (lead & E & Hl & Hh)].
  - exists []. repeat split; constructor.
  - simpl. destruct (drop c) eqn:Ec.
    + exists (c :: lead). repeat split; [simpl; congruence|now constructor|exact Hh].
    + exists []. repeat split; [constructor|exact Ec].
Qed.

Lemma rstrip_by_split (drop : char -> bool) (s : str) :
  exists trail,
    s = rstrip_by drop s ++ trail
    /\ Forall (fun c => drop c = true) trail
    /\ forall init c, rstrip_by drop s = init ++ [c] -> drop c = false.
Proof.
  induction s as [|c s (trail & E & Ht & Hl)] using rev_ind.
  - exists []. repeat split; [constructor|].
    intros init c H. destruct init; discriminate.
  - rewrite rstrip_by_snoc. destruct (drop c) eqn:Ec.
    + exists (trail ++ [c]). repeat split.
      * rewrite app_assoc. congruence.
      * apply Forall_app. split; [exact Ht|now repeat constructor].
      * exact Hl.
    + exists []. repeat split; [now rewrite app_nil_r|constructor|].
      intros init c' H. apply app_inj_tail in H as [_ <-]. exact Ec.
Qed.

Lemma strip_by_split (drop : char -> bool) (s : str) :
  exists lead trail,
    s = lead ++ strip_by drop s ++ trail
    /\ Forall (fun c => drop c = true) lead
    /\ Forall (fun c => drop c = true) trail
    /\ (forall c r, strip_by drop s = c :: r -> drop c = false)
    /\ (forall init c, strip_by drop s = init ++ [c] -> drop c = false).
Proof.
  unfold strip_by.
  destruct (lstrip_by_split drop s) as (lead & E1 & Hl & Hh).
  destruct (rstrip_by_split drop (lstrip_by drop s)) as (trail & E2 & Ht & Hlast).
  exists lead, trail. repeat split; try assumption.
  - rewrite <- E2. exact E1.
  - intros c r H. rewrite H in E2. rewrite E2 in Hh. exact Hh.
Qed.

(** X4: the text of a question [parse_filename] returns is the text of
    the file without the line feeds at its start and at its end: nothing
    else is removed, and the text neither starts nor ends with a line
    feed. *)
Theorem parsed_text_stripped
        (p : path) (fs fs' : filesystem) (q : Question) :
  parse_filename p fs = (Ok q, fs') ->
  exists content lead trail,
    fs_lookup fs p = Some (File content)
    /\ content = lead ++ text q ++ trail
    /\ Forall (fun c => c = LF) lead
    /\ Forall (fun c => c = LF) trail
    /\ (forall c r, text q = c :: r -> c <> LF)
    /\ (forall init c, text q = init ++ [c] -> c <> LF).
Proof.
  intros H.
  destruct (parse_filename_ok _ _ H) as (_ & x & content & _ & _ & Hf & ->).
  cbn [text]. unfold strip_chars.
  destruct (strip_by_split (fun c => mem c [LF]) content)
    as (lead & trail & E & Hl & Ht & Hh & Hlast).
  assert (M : forall c, mem c [LF] = true <-> c = LF).
  { intros c. unfold mem. simpl. rewrite orb_false_r. apply N.eqb_eq. }
  exists content, lead, trail.
  split; [exact Hf|]. split; [exact E|].
  split; [eapply Forall_impl; [|exact Hl]; intros c; apply M|].
  split; [eapply Forall_impl; [|exact Ht]; intros c; apply M|].
  split.
  - intros c r Hc ->. apply Hh in Hc. discriminate.
  - intros init c Hc ->. apply Hlast in Hc. discriminate.
Qed.

(** ** The slug *)

Lemma uint_digits_ascii (d : Decimal.uint) :
  Forall (fun c => is_ascii_digit c = true) (uint_digits d).
Proof. induction d; simpl; constructor; auto. Qed.

Lemma uint_digits_inj (d d' : Decimal.uint) :
  uint_digits d = uint_digits d' -> d = d'.
Proof.
  revert d'; induction d; intros d' H; destruct d'; simpl in H;
    try discriminate; try reflexivity;
    injection H as H; f_equal; now apply IHd.
Qed.

Lemma str_of_int_nonneg (n : Z) :
  (0 <= n)%Z -> exists d, Z.to_int n = Decimal.Pos d
                          /\ str_of_int n = uint_digits d.
Proof.
  intros Hn. unfold str_of_int. destruct n as [|k|k]; [| |lia]; simpl; eauto.
Qed.

Lemma str_of_int_ascii (n : Z) :
  (0 <= n)%Z -> Forall (fun c => is_ascii_digit c = true) (str_of_int n).
Proof.
  intros Hn. destruct (str_of_int_nonneg Hn) as (d & _ & ->).
  apply uint_digits_ascii.
Qed.

Lemma str_of_int_inj (n m : Z) :
  (0 <= n)%Z -> (0 <= m)%Z -> str_of_int n = str_of_int m -> n = m.
Proof.
  intros Hn Hm E.
  destruct (str_of_int_nonneg Hn) as (d & Td & Sd).
  destruct (str_of_int_nonneg Hm) as (d' & Td' & Sd').
  rewrite Sd, Sd' in E. apply uint_digits_inj in E. subst d'.
  apply DecimalZ.to_int_inj. congruence.
Qed.

Lemma split_at_stop (cl : char -> bool) (a a' : str) (c c' : char)
      (r r' : str) :
  Forall (fun x => cl x = true) a -> Forall (fun x => cl x = true) a' ->
  cl c = false -> cl c' = false ->
  a ++ c :: r = a' ++ c' :: r' -> a = a' /\ c = c' /\ r = r'.
Proof.
  intros Ha; revert a'.
  induction Ha as [|x a Hx Ha IH]; intros a' Ha' Hc Hc' E.
  - destruct Ha' as [|y a' Hy Ha']; simpl in E.
    + now injection E.
    + injection E as -> _. congruence.
  - destruct Ha' as [|y a' Hy Ha']; simpl in E.
    + injection E as -> _. congruence.
    + injection E as -> E. destruct (IH _ Ha' Hc Hc' E) as (-> & -> & ->).
      auto.
Qed.

Lemma app_same_length {A} (a a' b b' : list A) :
  List.length a = List.length a' -> a ++ b = a' ++ b' -> a = a' /\ b = b'.
Proof.
  revert a'; induction a as [|x a IH]; intros [|y a'] Hl E;
    try discriminate; simpl in *; [auto|].
  injection E as -> E. injection Hl as Hl.
  destruct (IH _ Hl E) as [-> ->]. auto.
Qed.

Lemma ascii_digit_not_underscore (c : char) :
  is_ascii_digit c = true -> (c =? 95)%N = false.
Proof.
  unfold is_ascii_digit. intros H. apply andb_true_iff in H as [_ H].
  apply N.leb_le in H. apply N.eqb_neq. lia.
Qed.

(** X5: two questions [parse_filename] returns have the same slug exactly
    when they have the same year, the same era code and the same
    question number; the subject and the way the numbers are written in
    the name do not count. *)
Theorem slug_collision_iff
        (p1 p2 : path) (fs1 fs1' fs2 fs2' : filesystem) (q1 q2 : Question) :
  parse_filename p1 fs1 = (Ok q1, fs1') ->
  parse_filename p2 fs2 = (Ok q2, fs2') ->
  slug q1 = slug q2
  <-> year q1 = year q2 /\ era_code q1 = era_code q2 /\ qnum q1 = qnum q2.
Proof.
  intros H1 H2.
  destruct (parse_filename_ok _ _ H1) as (_ & x1 & c1 & W1 & _ & _ & ->).
  destruct (parse_filename_ok _ _ H2) as (_ & x2 & c2 & W2 & _ & _ & ->).
  cbn [slug year era_code qnum].
  destruct W1 as (_ & _ & _ & Hy1 & _ & Hl1 & _ & _ & Hn1).
  destruct W2 as (_ & _ & _ & Hy2 & _ & Hl2 & _ & _ & Hn2).
  pose proof (decimal_number_bounds Hy1) as [By1 _].
  pose proof (decimal_number_bounds Hy2) as [By2 _].
  pose proof (decimal_number_bounds Hn1) as [Bn1 _].
  pose proof (decimal_number_bounds Hn2) as [Bn2 _].
  split.
  - intros E. change (u "_") with [95%N] in E. cbn [app] in E.
    apply (@split_at_stop (fun c => negb (c =? 95)%N)) in E
      as (Ey & _ & E); try reflexivity;
      try (eapply Forall_impl; [|apply str_of_int_ascii; assumption];
           intros c Hc; now rewrite (ascii_digit_not_underscore _ Hc)).
    apply str_of_int_inj in Ey; try assumption.
    change (np_era x1 :: np_num2 x1 ++ ?r)
      with ((np_era x1 :: np_num2 x1) ++ r) in E.
    change (np_era x2 :: np_num2 x2 ++ ?r)
      with ((np_era x2 :: np_num2 x2) ++ r) in E.
    apply app_same_length in E as [Ee E]; [|simpl; congruence].
    apply app_inv_head in E. apply app_inv_tail in E.
    apply str_of_int_inj in E; auto.
  - intros (-> & -> & ->). reflexivity.
Qed.

Lemma digit_not_slash (c : char) : is_digit c = true -> c <> 47%N.
Proof. intros H ->. vm_compute in H. discriminate. Qed.

Lemma ascii_digit_not_slash (c : char) : is_ascii_digit c = true -> c <> 47%N.
Proof. intros H ->. vm_compute in H. discriminate. Qed.

(** X6: the slug of a question [parse_filename] returns holds no [/] and
    ends in [.md]: joined to the output directory of the subject it names
    a file of that directory. *)
Theorem parsed_slug_is_a_file_name
        (p : path) (fs fs' : filesystem) (q : Question) :
  parse_filename p fs = (Ok q, fs') ->
  Forall (fun c => c <> 47%N) (slug q)
  /\ exists stem, stem <> [] /\ slug q = stem ++ u ".md".
Proof.
  intros H.
  destruct (parse_filename_ok _ _ H) as (_ & x & content & W & _ & _ & ->).
  destruct W as (_ & _ & _ & Hy & He & _ & Hn2 & _ & Hn).
  pose proof (decimal_number_bounds Hy) as [By _].
  pose proof (decimal_number_bounds Hn) as [Bn _].
  cbn [slug]. split.
  - repeat (apply Forall_app; split).
    + eapply Forall_impl; [|apply (str_of_int_ascii By)].
      intros c. apply ascii_digit_not_slash.
    + repeat constructor; discriminate.
    + constructor.
      * destruct He as [-> | ->]; discriminate.
      * eapply Forall_impl; [|exact Hn2]. intros c. apply digit_not_slash.
    + repeat constructor; discriminate.
    + eapply Forall_impl; [|apply (str_of_int_ascii Bn)].
      intros c. apply ascii_digit_not_slash.
    + repeat constructor; discriminate.
  - exists (str_of_int (decimal_number (np_year x)) ++ u "_"
            ++ (np_era x :: np_num2 x) ++ u "_q"
            ++ str_of_int (decimal_number (np_num x))).
    split; [|repeat rewrite <- app_assoc; reflexivity].
    intros E. apply app_eq_nil in E as [_ E]. discriminate E.
Qed.

(** ** The title *)


(** ** write_question_page *)

Section PageWriter.

Variable yaml_safe_load : yaml_loader.




End PageWriter.

(* ================================================================== *)
(** * The index of a subject *)

Lemma distinct_In {A} (eqb : A -> A -> bool) (l : list A) (x : A) :
  (forall a b, eqb a b = true <-> a = b) ->
  In x (distinct eqb l) <-> In x l.
Proof.
  intros Heq. induction l as [|y l IH]; simpl; [tauto|].
  rewrite filter_In, IH. split.
  - intros [->|[H _]]; auto.
  - intros [->|H]; [auto|].
    destruct (eqb x y) eqn:E.
    + apply Heq in E. auto.
    + right. split; [exact H|reflexivity].
Qed.

Lemma distinct_NoDup {A} (eqb : A -> A -> bool) (l : list A) :
  (forall a b, eqb a b = true <-> a = b) -> NoDup (distinct eqb l).
Proof.
  intros Heq. induction l as [|y l IH]; simpl; constructor.
  - intros H. apply filter_In in H as [_ H].
    assert (E : eqb y y = true) by now apply Heq.
    rewrite E in H. discriminate.
  - now apply NoDup_filter.
Qed.

Lemma StronglySorted_strict (l : list Z) :
  StronglySorted (fun a b => (a <? b)%Z = false) l -> NoDup l ->
  StronglySorted (fun a b => (a > b)%Z) l.
Proof.
  induction 1 as [|x l Hs IH Hx]; intros Hd; constructor.
  - apply IH. now inversion Hd.
  - inversion Hd as [|? ? Hnin _]; subst.
    apply Forall_forall. intros y Hy.
    rewrite Forall_forall in Hx. specialize (Hx y Hy).
    apply Z.ltb_ge in Hx.
    assert (x <> y) by (intros ->; contradiction). lia.
Qed.

Lemma subject_index_row_ok (by_year : list Question) (yr : Z) (row : str) :
  subject_index_row by_year yr = Ok row ->
  exists first rest era,
    by_year = first :: rest
    /\ era_label (era_code first) (u "年度") = Ok era
    /\ row = u "| " ++ era ++ u "（" ++ str_of_int yr ++ u "年度） | "
             ++ join (u " / ")
                  (map index_link
                       (stable_sort (fun a b => (qnum a <? qnum b)%Z) by_year))
             ++ u " |".
Proof.
  unfold subject_index_row. destruct by_year as [|first rest]; [discriminate|].
  unfold rbind.
  destruct (era_label (era_code first) (u "年度")) as [era|e] eqn:E;
    [|discriminate].
  intros H. exists first, rest, era.
  split; [reflexivity|]. split; [exact E|].
  injection H as <-. reflexivity.
Qed.

(** X10: a subject index has one row for every year that has a question
    and for no other year, the most recent year first; the links of the
    row of a year are the questions of that year by question number,
    ascending; the file written is [index.md] in the directory of the
    subject, and it ends in one line feed. *)
Theorem write_subject_index_rows
        (subject_dir : path) (subject_code : str) (questions : list Question) :
  StronglySorted (fun a b => (a > b)%Z) (index_years questions)
  /\ (forall yr, In yr (index_years questions)
                 <-> exists q, In q questions /\ year q = yr)
  /\ (forall yr,
         Permutation (index_row_questions questions yr)
                     (filter (fun q => (year q =? yr)%Z) questions)
         /\ StronglySorted (fun a b => (qnum a <= qnum b)%Z)
                           (index_row_questions questions yr))
  /\ forall fs fs',
      write_subject_index subject_dir subject_code questions fs
      = (Ok tt, fs') ->
      exists rows,
        Forall2 (fun yr row =>
                   exists era,
                     row = u "| " ++ era ++ u "（" ++ str_of_int yr
                           ++ u "年度） | "
                           ++ join (u " / ")
                                (map index_link
                                     (index_row_questions questions yr))
                           ++ u " |")
                (index_years questions) rows
        /\ fs_lookup fs' (child subject_dir (u "index.md"))
           = Some (File (rstrip (join [LF] (index_heading subject_code ++ rows))
                         ++ [LF])).
Proof.
  assert (Heq : forall a b : Z, (a =? b)%Z = true <-> a = b)
    by (intros; apply Z.eqb_eq).
  split; [|split; [|split]].
  - apply StronglySorted_strict.
    + apply (stable_sort_sorted (fun a b => (b <? a)%Z)).
      * intros x y z H1 H2. apply Z.ltb_ge in H1, H2. apply Z.ltb_ge. lia.
      * intros x y H. apply Z.ltb_lt in H. apply Z.ltb_ge. lia.
    + eapply Permutation_NoDup; [symmetry; apply stable_sort_perm|].
      now apply (@distinct_NoDup Z Z.eqb).
  - intros yr. unfold index_years. split.
    + intros H. eapply Permutation_in in H; [|apply stable_sort_perm].
      apply (proj1 (@distinct_In Z Z.eqb _ _ Heq)) in H. apply in_map_iff in H as (q & E & H).
      eauto.
    + intros (q & H & E). eapply Permutation_in;
        [symmetry; apply stable_sort_perm|].
      apply (proj2 (@distinct_In Z Z.eqb _ _ Heq)). apply in_map_iff. eauto.
  - intros yr. split; [apply stable_sort_perm|].
    apply StronglySorted_weaken
      with (R := fun a b => (qnum b <? qnum a)%Z = false).
    + intros a b H. now apply Z.ltb_ge in H.
    + apply (stable_sort_sorted (fun a b => (qnum a <? qnum b)%Z)).
      * intros x y z H1 H2. apply Z.ltb_ge in H1, H2. apply Z.ltb_ge. lia.
      * intros x y H. apply Z.ltb_lt in H. apply Z.ltb_ge. lia.
  - intros fs fs' H. unfold write_subject_index, bind, lift in H.
    fold (index_years questions) in H.
    destruct (collect
                (map (fun yr =>
                        subject_index_row
                          (filter (fun q => (year q =? yr)%Z) questions) yr)
                     (index_years questions))) as [rows|e] eqn:E;
      [|discriminate].
    exists rows. split.
    + apply collect_rows in E.
      eapply Forall2_impl; [|exact E]. intros yr row Hr.
      apply subject_index_row_ok in Hr as (first & rest & era & _ & _ & ->).
      exists era. reflexivity.
    + unfold write_text in H.
      destruct (fs_lookup fs (child subject_dir (u "index.md")))
        as [[|c|]|]; try discriminate;
        destruct (fs_lookup fs (parent (child subject_dir (u "index.md"))))
          as [[|c'|]|]; try discriminate;
        injection H as <-; apply fs_lookup_set_same;
        unfold child; intros E0; apply app_eq_nil in E0 as [_ E0];
        discriminate.
Qed.

(* ================================================================== *)
(** * What the reader finds on any page *)

Lemma rstrip_idem (s : str) : rstrip (rstrip s) = rstrip s.
Proof.
  induction s as [|c s IH] using rev_ind; [reflexivity|].
  unfold rstrip in *. rewrite rstrip_by_snoc.
  destruct (isspace c) eqn:Ec; [exact IH|].
  now rewrite rstrip_by_snoc, Ec.
Qed.

Lemma rstrip_cons_ink (s : str) : rstrip s <> [] -> has_ink s = true.
Proof.
  intros H. destruct (has_ink s) eqn:E; [reflexivity|].
  now apply rstrip_no_ink in E.
Qed.

(** X11: whatever a page holds, the memo read from it holds a character
    that is not whitespace and does not end in whitespace. *)
Theorem existing_memo_never_blank (content : str) :
  has_ink (existing_memo content) = true
  /\ rstrip (existing_memo content) = existing_memo content.
Proof.
  unfold existing_memo.
  destruct (memo_search content) as [g|]; [|split; reflexivity].
  destruct (rstrip g) as [|c l] eqn:E; [split; reflexivity|].
  rewrite <- E. split; [|apply rstrip_idem].
  rewrite rstrip_has_ink. apply rstrip_cons_ink. now rewrite E.
Qed.

Lemma spaces_then_newline_inv (s r : str) :
  spaces_then_newline s = Some r ->
  spaces_then_newline r = None
  /\ exists ws, s = ws ++ [LF] ++ r /\ Forall (fun c => isspace c = true) ws.
Proof.
  revert r. induction s as [|c s IH]; intros r H; [discriminate|].
  simpl in H. destruct (isspace c) eqn:Ec; [|discriminate].
  destruct (spaces_then_newline s) as [r'|] eqn:Es.
  - injection H as <-. destruct (IH r' eq_refl) as (Hn & ws & -> & Hw).
    split; [exact Hn|]. exists (c :: ws). split; [reflexivity|].
    now constructor.
  - destruct (c =? LF)%N eqn:El; [|discriminate]. injection H as <-.
    apply N.eqb_eq in El. subst c.
    split; [exact Es|]. exists []. split; [reflexivity|constructor].
Qed.

Lemma memo_search_none (content : str) :
  occurs MEMO_HEADING content = false -> memo_search content = None.
Proof.
  induction content as [|c s IH]; intros H.
  - reflexivity.
  - rewrite memo_search_eq. unfold memo_match_at, expect.
    rewrite (occurs_startswith _ _ H). cbn [obind].
    apply IH. eapply occurs_tail. exact H.
Qed.

(** X12: when the memo pattern is found on a page, the page is some
    text, the heading of the memo section, a run of whitespace, a line
    feed and the text found, and the text found does not begin with a
    run of whitespace that holds a line feed; on a page that does not
    hold the heading nothing is found. *)
Theorem memo_search_shape (content : str) :
  (forall g,
      memo_search content = Some g ->
      spaces_then_newline g = None
      /\ exists before ws,
          content = before ++ MEMO_HEADING ++ ws ++ [LF] ++ g
          /\ Forall (fun c => isspace c = true) ws)
  /\ (occurs MEMO_HEADING content = false -> memo_search content = None).
Proof.
  split; [|apply memo_search_none].
  induction content as [|c s IH]; intros g H.
  - discriminate.
  - rewrite memo_search_eq in H.
    destruct (memo_match_at (c :: s)) as [g'|] eqn:Em.
    + injection H as <-. unfold memo_match_at in Em.
      destruct (expect MEMO_HEADING (c :: s)) as [r|] eqn:Ee; [|discriminate].
      cbn [obind] in Em. apply expect_inv in Ee.
      apply spaces_then_newline_inv in Em as (Hn & ws & -> & Hw).
      split; [exact Hn|]. exists [], ws. split; [exact Ee|exact Hw].
    + destruct (IH g H) as (Hn & before & ws & -> & Hw).
      split; [exact Hn|]. exists (c :: before), ws.
      split; [reflexivity|exact Hw].
Qed.

Lemma cut_none (sep s : str) : occurs sep s = false -> cut sep s = None.
Proof.
  induction s as [|c s IH]; intros H.
  - rewrite cut_eq, (occurs_startswith _ _ H). reflexivity.
  - rewrite cut_eq, (occurs_startswith _ _ H), IH; [reflexivity|].
    eapply occurs_tail. exact H.
Qed.

Lemma existing_tags_no_block (Y : yaml_loader) (content : str) :
  startswith FENCE content = false
  \/ occurs FENCE (skipn 3 content) = false ->
  existing_tags Y content = [].
Proof.
  unfold existing_tags. intros [H|H]; [now rewrite H|].
  destruct (startswith FENCE content) eqn:Es; [|reflexivity].
  change (split FENCE 2 content)
    with (match cut FENCE content with
          | None => [content]
          | Some (x, b) =>
            x :: match cut FENCE b with
                 | None => [b]
                 | Some (y, c) => [y; c]
                 end
          end).
  rewrite (cut_eq FENCE content), Es.
  change (List.length FENCE) with 3%nat.
  now rewrite (cut_none _ _ H).
Qed.

(** X13: a page that exists is read as it is, for every loader; when it
    does not begin with the fence, or holds no second fence, no tags are
    read, and when it does not hold the heading of the memo section the
    memo is the placeholder. *)
Theorem page_without_metadata_reads_defaults
        (Y : yaml_loader) (p : path) (fs : filesystem) (content : str) :
  fs_lookup fs p = Some (File content) ->
  read_existing_tags_and_memo Y p fs
  = (Ok (existing_tags Y content, existing_memo content), fs)
  /\ (startswith FENCE content = false
      \/ occurs FENCE (skipn 3 content) = false ->
      existing_tags Y content = [])
  /\ (occurs MEMO_HEADING content = false ->
      existing_memo content = DEFAULT_MEMO).
Proof.
  intros Hf. split; [|split].
  - unfold read_existing_tags_and_memo, bind, exists_, read_text, ret.
    rewrite Hf. cbn [negb]. rewrite Hf. reflexivity.
  - apply existing_tags_no_block.
  - intros H. unfold existing_memo. now rewrite (memo_search_none _ H).
Qed.

(* ================================================================== *)
(** * Every line of a blockquote is quoted *)




(* ================================================================== *)
(** * When the home page can be built *)

Lemma collect_ok {A B} (f : A -> result B) (l : list A) :
  Forall (fun x => exists r, f x = Ok r) l ->
  exists rows, collect (map f l) = Ok rows.
Proof.
  induction 1 as [|x l [r Hr] _ [rows IH]]; simpl.
  - now exists [].
  - unfold rbind. rewrite Hr, IH. now exists (r :: rows).
Qed.

Lemma year_labels_ok (l : list Question) (seen : list Z) :
  Forall (fun q => exists e, era_label (era_code q) (u "年度") = Ok e) l ->
  exists labels, year_labels l seen = Ok labels.
Proof.
  intros H. revert seen.
  induction H as [|q l [e He] _ IH]; intros seen; simpl.
  - now exists [].
  - destruct (existsb (Z.eqb (year q)) seen); [apply IH|].
    unfold rbind. rewrite He.
    destruct (IH (year q :: seen)) as [more ->]. eauto.
Qed.

Section HomeBuilt.

Variable lower : str -> str.
Variable HOME_SCRIPT : str.

Lemma home_row_ok (q : Question) (e : str) :
  era_label (era_code q) (u "年度") = Ok e ->
  exists r, home_row lower q = Ok r.
Proof.
  intros H. unfold home_row, rbind. rewrite H. eexists. reflexivity.
Qed.

Lemma home_row_inv (q : Question) (r : str) :
  home_row lower q = Ok r ->
  exists e, era_label (era_code q) (u "年度") = Ok e.
Proof.
  unfold home_row, rbind.
  destruct (era_label (era_code q) (u "年度")) as [e|x];
    [eauto|discriminate].
Qed.

(** X15: the text of the home page can be built exactly when the era
    code of every question reads as an era label; when it can, the table
    has one row for every question. *)
Theorem home_content_succeeds_iff (all_questions : list Question) :
  ((exists content, home_content lower HOME_SCRIPT all_questions = Ok content)
   <-> Forall (fun q => exists e, era_label (era_code q) (u "年度") = Ok e)
              all_questions)
  /\ forall rows,
      collect (map (home_row lower) (sorted_questions all_questions))
      = Ok rows ->
      List.length rows = List.length all_questions.
Proof.
  split; [split|].
  - intros [content H]. unfold home_content, rbind in H.
    destruct (year_labels all_questions []) as [labels|x]; [|discriminate].
    destruct (collect (map (home_row lower) (sorted_questions all_questions)))
      as [rows|x] eqn:E; [|discriminate].
    apply collect_rows in E.
    apply (@Permutation_Forall _ _ (sorted_questions all_questions));
      [apply stable_sort_perm|].
    clear H. revert E. generalize (sorted_questions all_questions).
    intros l E. induction E as [|q r l rows Hq _ IH]; constructor.
    + eapply home_row_inv. exact Hq.
    + exact IH.
  - intros H. unfold home_content, rbind.
    destruct (year_labels_ok [] H) as [labels ->].
    assert (Hs : Forall (fun q => exists r, home_row lower q = Ok r)
                        (sorted_questions all_questions)).
    { apply (@Permutation_Forall _ _ all_questions);
        [symmetry; apply stable_sort_perm|].
      eapply Forall_impl; [|exact H]. intros q [e He].
      eapply home_row_ok. exact He. }
    destruct (collect_ok _ Hs) as [rows ->]. eauto.
  - intros rows E. apply collect_rows, Forall2_length in E.
    rewrite <- E. apply Permutation_length, stable_sort_perm.
Qed.

End HomeBuilt.

(* ================================================================== *)
(** * The sort keeps the order of equal keys *)

Section Stable.

Variable A : Type.
Variable ltb : A -> A -> bool.
Variable P : A -> bool.
Hypothesis apart :
  forall x y, ltb y x = true -> P x = true -> P y = true -> False.

Lemma insert_filter (x : A) (l : list A) :
  filter P (insert ltb x l) = filter P (x :: l).
Proof.
  induction l as [|y l IH]; [reflexivity|].
  cbn [insert]. destruct (ltb y x) eqn:E; [|reflexivity].
  cbn [filter] in *. rewrite IH.
  destruct (P x) eqn:Ex, (P y) eqn:Ey; try reflexivity.
  exfalso. eapply apart; eassumption.
Qed.

Lemma stable_sort_filter (l : list A) :
  filter P (stable_sort ltb l) = filter P l.
Proof.
  induction l as [|x l IH]; [reflexivity|].
  cbn [stable_sort]. rewrite insert_filter. cbn [filter]. now rewrite IH.
Qed.

End Stable.

Lemma home_key_eqb_eq (a b : (nat * str) * (Z * Z)) :
  pair_eqb subject_key_eqb (pair_eqb Z.eqb Z.eqb) a b = true -> a = b.
Proof.
  destruct a as [[i s] [y n]], b as [[i' s'] [y' n']].
  unfold pair_eqb, subject_key_eqb, pair_eqb. cbn [fst snd].
  rewrite !andb_true_iff, Nat.eqb_eq, str_eqb_eq, !Z.eqb_eq.
  intros [[-> ->] [-> ->]]. reflexivity.
Qed.

(** X16: the questions of one subject, year and question number stand
    on the home page in the order in which they were collected. *)
Theorem sorted_questions_stable
        (all_questions : list Question) (k : (nat * str) * (Z * Z)) :
  filter (fun q => pair_eqb subject_key_eqb (pair_eqb Z.eqb Z.eqb)
                            (home_key q) k)
         (sorted_questions all_questions)
  = filter (fun q => pair_eqb subject_key_eqb (pair_eqb Z.eqb Z.eqb)
                              (home_key q) k)
           all_questions.
Proof.
  unfold sorted_questions. apply stable_sort_filter.
  intros x y Hlt Hx Hy.
  apply home_key_eqb_eq in Hx, Hy. rewrite Hx, Hy in Hlt.
  rewrite (st_irrefl home_key_strict_total) in Hlt. discriminate.
Qed.

(* ================================================================== *)
(** * Nothing is removed *)

Lemma bind_ok {A B} (m : M A) (k : A -> M B) (fs fs' : filesystem) (b : B) :
  bind m k fs = (Ok b, fs') ->
  exists a fs1, m fs = (Ok a, fs1) /\ k a fs1 = (Ok b, fs').
Proof.
  unfold bind. destruct (m fs) as [[a|e] fs1]; [eauto|discriminate].
Qed.

Lemma kept_refl (fs : filesystem) : kept fs fs.
Proof. intros p. repeat split; eauto. Qed.

Lemma kept_trans (fs1 fs2 fs3 : filesystem) :
  kept fs1 fs2 -> kept fs2 fs3 -> kept fs1 fs3.
Proof.
  intros H1 H2 p.
  destruct (H1 p) as (D1 & F1 & B1), (H2 p) as (D2 & F2 & B2).
  split; [auto|]. split.
  - intros c Hc. destruct (F1 c Hc) as [c' Hc']. eauto.
  - intros Hb. destruct (B1 Hb) as [Hb'|[c' Hc']]; [auto|].
    right. eauto.
Qed.

Lemma kept_set (fs : filesystem) (p : path) (n : node) :
  p <> [] ->
  match fs_lookup fs p, n with
  | None, _ => True
  | Some (File _), File _ => True
  | Some Binary, File _ => True
  | Some Dir, Dir => True
  | _, _ => False
  end ->
  kept fs (fs_set fs p n).
Proof.
  intros Hp Hn q.
  destruct (list_eq_dec (list_eq_dec N.eq_dec) q p) as [->|Hq].
  - rewrite (fs_lookup_set_same fs n Hp).
    destruct (fs_lookup fs p) as [[|c|]|], n as [|c'|]; try contradiction;
      repeat split; try discriminate; eauto.
  - rewrite (fs_lookup_set_other fs n Hq). repeat split; eauto.
Qed.

Lemma deletes_nothing_ret {A} (a : A) : deletes_nothing (ret a).
Proof. intros fs. apply kept_refl. Qed.

Lemma deletes_nothing_raise {A} (e : exn) : deletes_nothing (@raise A e).
Proof. intros fs. apply kept_refl. Qed.

Lemma deletes_nothing_lift {A} (r : result A) : deletes_nothing (lift r).
Proof. intros fs. apply kept_refl. Qed.

Lemma deletes_nothing_bind {A B} (m : M A) (k : A -> M B) :
  deletes_nothing m -> (forall a, deletes_nothing (k a)) ->
  deletes_nothing (bind m k).
Proof.
  intros Hm Hk fs. unfold bind. specialize (Hm fs).
  destruct (m fs) as [[a|e] fs1]; cbn [snd] in *; [|exact Hm].
  eapply kept_trans; [exact Hm|apply Hk].
Qed.

Lemma deletes_nothing_exists (p : path) : deletes_nothing (exists_ p).
Proof. intros fs. apply kept_refl. Qed.

Lemma deletes_nothing_is_dir (p : path) : deletes_nothing (is_dir p).
Proof. intros fs. apply kept_refl. Qed.

Lemma deletes_nothing_read_text (p : path) : deletes_nothing (read_text p).
Proof.
  intros fs. unfold read_text.
  destruct (fs_lookup fs p) as [[|c|]|]; apply kept_refl.
Qed.

Lemma deletes_nothing_iterdir (p : path) : deletes_nothing (iterdir p).
Proof.
  intros fs. unfold iterdir.
  destruct (fs_lookup fs p) as [[|c|]|]; apply kept_refl.
Qed.

Lemma deletes_nothing_glob (p : path) : deletes_nothing (glob p).
Proof.
  intros fs. unfold glob.
  destruct (fs_lookup fs p) as [[|c|]|]; apply kept_refl.
Qed.

Lemma lookup_not_root (fs : filesystem) (p : path) :
  fs_lookup fs p <> Some Dir -> p <> [].
Proof. intros H ->. now rewrite fs_lookup_root in H. Qed.

Lemma deletes_nothing_write_text (p : path) (content : str) :
  deletes_nothing (write_text p content).
Proof.
  intros fs. unfold write_text.
  destruct (fs_lookup fs p) as [[|c|]|] eqn:E;
    try apply kept_refl;
    destruct (fs_lookup fs (parent p)) as [[|c'|]|]; cbn [snd];
      try apply kept_refl;
      (apply kept_set;
       [apply (@lookup_not_root fs); rewrite E; discriminate
       |now rewrite E]).
Qed.

Lemma deletes_nothing_mkdir (p : path) : deletes_nothing (mkdir p).
Proof.
  intros fs. unfold mkdir.
  destruct (fs_lookup fs p) as [[|c|]|] eqn:E;
    try apply kept_refl;
    destruct (fs_lookup fs (parent p)) as [[|c'|]|]; cbn [snd];
      try apply kept_refl;
      (apply kept_set;
       [apply (@lookup_not_root fs); rewrite E; discriminate
       |now rewrite E]).
Qed.

Lemma deletes_nothing_mkdir_ancestor (p : path) :
  deletes_nothing (mkdir_ancestor p).
Proof.
  intros fs. unfold mkdir_ancestor.
  destruct (fs_lookup fs p) as [[|c|]|];
    try apply kept_refl; apply deletes_nothing_mkdir.
Qed.

Lemma deletes_nothing_mkdir_below (above : path) (names : list str) :
  deletes_nothing (mkdir_below above names).
Proof.
  revert above; induction names as [|n names IH]; intros above.
  - apply deletes_nothing_ret.
  - destruct names as [|n2 names].
    + apply deletes_nothing_mkdir.
    + change (mkdir_below above (n :: n2 :: names))
        with (bind (mkdir_ancestor (child above n))
                   (fun _ => mkdir_below (child above n) (n2 :: names))).
      apply deletes_nothing_bind; [apply deletes_nothing_mkdir_ancestor|].
      intros _. apply IH.
Qed.

Lemma deletes_nothing_parse_filename (p : path) :
  deletes_nothing (parse_filename p).
Proof.
  unfold parse_filename.
  destruct (match_filename (name_of p)); [|apply deletes_nothing_raise].
  apply deletes_nothing_bind; [apply deletes_nothing_lift|intros yr].
  apply deletes_nothing_bind; [apply deletes_nothing_lift|intros qn].
  apply deletes_nothing_bind; [apply deletes_nothing_read_text|intros c].
  apply deletes_nothing_ret.
Qed.

(** What [mkdir] with its parents changes: nothing that is there. *)
Lemma mkdir_keeps_present (p : path) (fs : filesystem) (q : path) (n : node) :
  fs_lookup fs q = Some n -> fs_lookup (snd (mkdir p fs)) q = Some n.
Proof.
  intros H. unfold mkdir.
  destruct (fs_lookup fs p) as [[|c|]|] eqn:E; try exact H.
  destruct (fs_lookup fs (parent p)) as [[|c'|]|]; cbn [snd]; try exact H.
  rewrite fs_lookup_set_other; [exact H|]. intros ->. congruence.
Qed.

Lemma mkdir_ancestor_keeps_present
      (p : path) (fs : filesystem) (q : path) (n : node) :
  fs_lookup fs q = Some n -> fs_lookup (snd (mkdir_ancestor p fs)) q = Some n.
Proof.
  intros H. unfold mkdir_ancestor.
  destruct (fs_lookup fs p) as [[|c|]|]; try exact H;
    now apply mkdir_keeps_present.
Qed.

Lemma mkdir_below_keeps_present
      (above : path) (names : list str) (fs : filesystem)
      (q : path) (n : node) :
  fs_lookup fs q = Some n ->
  fs_lookup (snd (mkdir_below above names fs)) q = Some n.
Proof.
  revert above fs; induction names as [|x names IH]; intros above fs H.
  - exact H.
  - destruct names as [|x2 names].
    + now apply mkdir_keeps_present.
    + change (mkdir_below above (x :: x2 :: names))
        with (bind (mkdir_ancestor (child above x))
                   (fun _ => mkdir_below (child above x) (x2 :: names))).
      unfold bind.
      pose proof (@mkdir_ancestor_keeps_present (child above x) fs q n H)
        as H1.
      destruct (mkdir_ancestor (child above x) fs) as [[[]|e] fs1];
        cbn [snd] in *; [now apply IH|exact H1].
Qed.

Lemma mkdir_ok_dir (p : path) (fs fs' : filesystem) :
  mkdir p fs = (Ok tt, fs') -> fs_lookup fs' p = Some Dir.
Proof.
  unfold mkdir. destruct (fs_lookup fs p) as [[|c|]|] eqn:E.
  - now intros [= <-].
  - discriminate.
  - discriminate.
  - destruct (fs_lookup fs (parent p)) as [[|c'|]|]; try discriminate.
    intros [= <-]. apply fs_lookup_set_same.
    apply (@lookup_not_root fs). rewrite E. discriminate.
Qed.

Lemma mkdir_below_ok_dir
      (names : list str) (above : path) (fs fs' : filesystem) :
  (names = [] -> fs_lookup fs above = Some Dir) ->
  mkdir_below above names fs = (Ok tt, fs') ->
  fs_lookup fs' (above ++ names) = Some Dir.
Proof.
  revert above fs; induction names as [|x names IH]; intros above fs Ha H.
  - injection H as <-. rewrite app_nil_r. now apply Ha.
  - destruct names as [|x2 names].
    + now apply mkdir_ok_dir in H.
    + change (mkdir_below above (x :: x2 :: names))
        with (bind (mkdir_ancestor (child above x))
                   (fun _ => mkdir_below (child above x) (x2 :: names))) in H.
      apply bind_ok in H as ([] & fs1 & H1 & H2).
      apply IH in H2; [|discriminate].
      unfold child in H2. now rewrite <- app_assoc in H2.
Qed.

(** X17: [ensure_empty_subject_dir] empties nothing: every file and
    directory that is there when it is called is there, with the same
    content, when it returns or raises; when it returns, the path is a
    directory. *)
Theorem ensure_empty_subject_dir_removes_nothing
        (d : path) (fs : filesystem) :
  (forall q n,
      fs_lookup fs q = Some n ->
      fs_lookup (snd (ensure_empty_subject_dir d fs)) q = Some n)
  /\ (fst (ensure_empty_subject_dir d fs) = Ok tt ->
      fs_lookup (snd (ensure_empty_subject_dir d fs)) d = Some Dir).
Proof.
  unfold ensure_empty_subject_dir, mkdir_parents. split.
  - intros q n. apply mkdir_below_keeps_present.
  - intros H.
    apply (@mkdir_below_ok_dir d [] fs); [intros _; apply fs_lookup_root|].
    destruct (mkdir_below [] d fs) as [r fs']. cbn [fst snd] in *.
    now rewrite H.
Qed.

Section Persist.

Variable yaml_safe_load : yaml_loader.
Variable lower : str -> str.
Variable HOME_SCRIPT : str.

Lemma deletes_nothing_read_existing (p : path) :
  deletes_nothing (read_existing_tags_and_memo yaml_safe_load p).
Proof.
  unfold read_existing_tags_and_memo.
  apply deletes_nothing_bind; [apply deletes_nothing_exists|intros b].
  destruct (negb b); [apply deletes_nothing_ret|].
  apply deletes_nothing_bind; [apply deletes_nothing_read_text|intros c].
  apply deletes_nothing_ret.
Qed.

Lemma deletes_nothing_write_question_page (target : path) (q : Question) :
  deletes_nothing (write_question_page yaml_safe_load target q).
Proof.
  unfold write_question_page.
  apply deletes_nothing_bind; [apply deletes_nothing_lift|intros title].
  apply deletes_nothing_bind; [apply deletes_nothing_read_existing|intros tm].
  apply deletes_nothing_bind; [apply deletes_nothing_write_text|intros _].
  apply deletes_nothing_ret.
Qed.

Lemma deletes_nothing_write_home (all_questions : list Question) :
  deletes_nothing (write_home lower HOME_SCRIPT all_questions).
Proof.
  unfold write_home.
  apply deletes_nothing_bind; [apply deletes_nothing_lift|intros content].
  apply deletes_nothing_write_text.
Qed.

Lemma deletes_nothing_process_file
      (output_dir f : path) (all_questions : list Question) :
  deletes_nothing (process_file yaml_safe_load output_dir f all_questions).
Proof.
  unfold process_file.
  apply deletes_nothing_bind; [apply deletes_nothing_parse_filename|intros q].
  apply deletes_nothing_bind; [|intros q'; apply deletes_nothing_ret].
  apply deletes_nothing_write_question_page.
Qed.

Lemma deletes_nothing_process_files
      (output_dir : path) (txt_files : list path)
      (all_questions : list Question) :
  deletes_nothing
    (process_files yaml_safe_load output_dir txt_files all_questions).
Proof.
  revert all_questions; induction txt_files as [|f rest IH]; intros acc.
  - apply deletes_nothing_ret.
  - cbn [process_files].
    apply deletes_nothing_bind; [|intros acc'; apply IH].
    apply deletes_nothing_process_file.
Qed.

Lemma deletes_nothing_process_subject
      (subject_dir : path) (all_questions : list Question) :
  deletes_nothing (process_subject yaml_safe_load subject_dir all_questions).
Proof.
  unfold process_subject.
  apply deletes_nothing_bind; [apply deletes_nothing_is_dir|intros b].
  destruct (negb b); [apply deletes_nothing_ret|].
  apply deletes_nothing_bind.
  - apply deletes_nothing_mkdir_below.
  - intros _. apply deletes_nothing_bind; [apply deletes_nothing_glob|].
    intros files. apply deletes_nothing_process_files.
Qed.

Lemma deletes_nothing_process_subjects
      (subject_dirs : list path) (all_questions : list Question) :
  deletes_nothing
    (process_subjects yaml_safe_load subject_dirs all_questions).
Proof.
  revert all_questions; induction subject_dirs as [|s rest IH]; intros acc.
  - apply deletes_nothing_ret.
  - cbn [process_subjects].
    apply deletes_nothing_bind; [apply deletes_nothing_process_subject|].
    intros acc'. apply IH.
Qed.

Lemma deletes_nothing_main :
  deletes_nothing (main yaml_safe_load lower HOME_SCRIPT).
Proof.
  unfold main.
  apply deletes_nothing_bind; [apply deletes_nothing_exists|intros b].
  destruct (negb b); [apply deletes_nothing_raise|].
  apply deletes_nothing_bind; [apply deletes_nothing_mkdir|intros _].
  apply deletes_nothing_bind; [apply deletes_nothing_iterdir|intros dirs].
  apply deletes_nothing_bind; [apply deletes_nothing_process_subjects|].
  intros all. apply deletes_nothing_write_home.
Qed.

(** X18: a run removes nothing, whether it ends normally or raises:
    every directory that is there before the run is a directory after
    it, and every file is a file after it (a file that is not UTF-8
    text stays as it is or becomes a file of text); a page whose
    question file is gone from the dataset stays. *)
Theorem main_deletes_nothing (fs : filesystem) (p : path) :
  (fs_lookup fs p = Some Dir ->
   fs_lookup (snd (main yaml_safe_load lower HOME_SCRIPT fs)) p = Some Dir)
  /\ (forall c,
         fs_lookup fs p = Some (File c) ->
         exists c',
           fs_lookup (snd (main yaml_safe_load lower HOME_SCRIPT fs)) p
           = Some (File c'))
  /\ (fs_lookup fs p = Some Binary ->
      fs_lookup (snd (main yaml_safe_load lower HOME_SCRIPT fs)) p
      = Some Binary
      \/ exists c',
          fs_lookup (snd (main yaml_safe_load lower HOME_SCRIPT fs)) p
          = Some (File c')).
Proof. apply deletes_nothing_main. Qed.

(** X19: without the dataset directory the run stops with [SystemExit]
    before it makes the output directory or writes a file. *)
Theorem main_without_dataset (fs : filesystem) :
  fs_lookup fs DATA_DIR = None ->
  main yaml_safe_load lower HOME_SCRIPT fs
  = (Raise (SystemExit (u "Dataset directory kyushi-ronbun not found.")), fs).
Proof.
  intros H. unfold main, bind, exists_. rewrite H. reflexivity.
Qed.







Section Collected.

(** The files before the run. *)
Variable fs0 : filesystem.





End Collected.


End Persist.

(* ================================================================== *)
(** * The filters of the home page *)








Section HomeFilters.

Variable lower : str -> str.
Variable HOME_SCRIPT : str.


End HomeFilters.


(* ================================================================== *)
(** * The properties on the example *)

Lemma parsed_question_invariants_witness :
  example_dataset = example_dataset
  /\ tags (example_question (u "問題文")) = []
  /\ subject (example_question (u "問題文")) <> []
  /\ Forall (fun c => is_lower_az c = true)
            (subject (example_question (u "問題文")))
  /\ (0 <= year (example_question (u "問題文")) <= 9999)%Z
  /\ (0 <= qnum (example_question (u "問題文")))%Z
  /\ (exists e d1 d2,
         era_code (example_question (u "問題文")) = [e; d1; d2]
         /\ (e = 115%N \/ e = 104%N)
         /\ is_digit d1 = true /\ is_digit d2 = true)
  /\ slug (example_question (u "問題文"))
     = str_of_int (year (example_question (u "問題文"))) ++ u "_"
       ++ era_code (example_question (u "問題文")) ++ u "_q"
       ++ str_of_int (qnum (example_question (u "問題文"))) ++ u ".md".
Proof.
  apply (@parsed_question_invariants
           example_file example_dataset example_dataset
           (example_question (u "問題文"))).
  reflexivity.
Defined.

Lemma parsed_text_stripped_witness :
  exists content lead trail,
    fs_lookup example_dataset example_file = Some (File content)
    /\ content = lead ++ text (example_question (u "問題文")) ++ trail
    /\ Forall (fun c => c = LF) lead
    /\ Forall (fun c => c = LF) trail
    /\ (forall c r, text (example_question (u "問題文")) = c :: r -> c <> LF)
    /\ (forall init c,
           text (example_question (u "問題文")) = init ++ [c] -> c <> LF).
Proof.
  apply (@parsed_text_stripped
           example_file example_dataset example_dataset
           (example_question (u "問題文"))).
  reflexivity.
Defined.

Lemma slug_collision_iff_witness :
  exists q2,
    parse_filename
      (child (child DATA_DIR (u "kenpo")) (u "kyushi_keiho_1985_s60_q01.txt"))
      (dataset [(u "kyushi_keiho_1985_s60_q01.txt", u "別の問題")])
    = (Ok q2, dataset [(u "kyushi_keiho_1985_s60_q01.txt", u "別の問題")])
    /\ (slug (example_question (u "問題文")) = slug q2
        <-> year (example_question (u "問題文")) = year q2
            /\ era_code (example_question (u "問題文")) = era_code q2
            /\ qnum (example_question (u "問題文")) = qnum q2).
Proof.
  eexists. split.
  - cbv. reflexivity.
  - apply (@slug_collision_iff
             example_file
             (child (child DATA_DIR (u "kenpo"))
                    (u "kyushi_keiho_1985_s60_q01.txt"))
             example_dataset example_dataset
             (dataset [(u "kyushi_keiho_1985_s60_q01.txt", u "別の問題")])
             (dataset [(u "kyushi_keiho_1985_s60_q01.txt", u "別の問題")])
             (example_question (u "問題文"))); reflexivity.
Defined.

Lemma parsed_slug_is_a_file_name_witness :
  Forall (fun c => c <> 47%N) (slug (example_question (u "問題文")))
  /\ exists stem,
      stem <> [] /\ slug (example_question (u "問題文")) = stem ++ u ".md".
Proof.
  apply (@parsed_slug_is_a_file_name
           example_file example_dataset example_dataset
           (example_question (u "問題文"))).
  reflexivity.
Defined.




Lemma page_without_metadata_reads_defaults_witness :
  read_existing_tags_and_memo plain_loader example_target
                              (docs_with (u "手で書いたページ"))
  = (Ok (existing_tags plain_loader (u "手で書いたページ"),
         existing_memo (u "手で書いたページ")),
     docs_with (u "手で書いたページ"))
  /\ (startswith FENCE (u "手で書いたページ") = false
      \/ occurs FENCE (skipn 3 (u "手で書いたページ")) = false ->
      existing_tags plain_loader (u "手で書いたページ") = [])
  /\ (occurs MEMO_HEADING (u "手で書いたページ") = false ->
      existing_memo (u "手で書いたページ") = DEFAULT_MEMO).
Proof.
  apply (@page_without_metadata_reads_defaults
           plain_loader example_target (docs_with (u "手で書いたページ"))
           (u "手で書いたページ")).
  reflexivity.
Defined.

Lemma main_without_dataset_witness :
  main plain_loader (fun s => s) [] []
  = (Raise (SystemExit (u "Dataset directory kyushi-ronbun not found.")), []).
Proof.
  apply (@main_without_dataset plain_loader (fun s => s) [] []).
  reflexivity.
Defined.


(* ================================================================== *)
(** * A click on a tag button *)

Module TagScriptFacts.

Import TagScript.

Lemma filter_notin (x : str) (l : list str) :
  ~ In x l -> filter (fun y => negb (str_eqb y x)) l = l.
Proof.
  intros H. induction l as [|y l IH]; [reflexivity|].
  cbn [filter].
  destruct (str_eqb y x) eqn:E.
  - apply str_eqb_eq in E. subst y. exfalso. apply H. now left.
  - cbn [negb]. rewrite IH; [reflexivity|]. intros Hin. apply H. now right.
Qed.

Lemma distinct_id (l : list str) : NoDup l -> distinct str_eqb l = l.
Proof.
  induction 1 as [|x l Hx Hl IH]; [reflexivity|].
  cbn [distinct]. rewrite IH. now rewrite filter_notin.
Qed.

Lemma filter_snoc_same (x : str) (l : list str) :
  ~ In x l -> filter (fun y => negb (str_eqb y x)) (l ++ [x]) = l.
Proof.
  intros H. rewrite filter_app, filter_notin by exact H.
  cbn [filter]. rewrite str_eqb_refl. cbn [negb]. apply app_nil_r.
Qed.

Lemma distinct_snoc_member (x : str) (l : list str) :
  NoDup l -> In x l -> distinct str_eqb (l ++ [x]) = l.
Proof.
  induction 1 as [|y l Hy Hl IH]; intros Hin; [contradiction|].
  cbn [app distinct].
  destruct (list_eq_dec N.eq_dec x y) as [->|Hne].
  - rewrite distinct_id.
    + now rewrite filter_snoc_same.
    + apply NoDup_app; [exact Hl|repeat constructor; intros []|].
      intros z Hz [<-|[]]. contradiction.
  - destruct Hin as [E|Hin]; [congruence|].
    rewrite (IH Hin). now rewrite filter_notin.
Qed.

Section Clicks.

Variable js_space : char -> bool.
Hypothesis space_is_space : js_space 32%N = true.

Lemma split_spaces_pieces (s cur : str) (in_gap : bool) :
  Forall (fun c => js_space c = false) cur ->
  Forall (Forall (fun c => js_space c = false))
         (split_spaces js_space cur in_gap s).
Proof.
  revert cur in_gap; induction s as [|c s IH]; intros cur g Hc.
  - cbn. repeat constructor. exact Hc.
  - cbn [split_spaces]. destruct (js_space c) eqn:E.
    + destruct g; [apply IH; constructor|].
      constructor; [exact Hc|apply IH; constructor].
    + apply IH. apply Forall_app. split; [exact Hc|].
      repeat constructor. exact E.
Qed.

Lemma tokens_of_tokens (value : str) :
  Forall (token js_space) (tokens_of js_space value).
Proof.
  unfold tokens_of. apply Forall_forall. intros t Ht.
  apply filter_In in Ht as [Hin Hne]. split.
  - intros ->. discriminate.
  - pose proof (@split_spaces_pieces (trim js_space value) [] false
                  (Forall_nil _)) as P.
    rewrite Forall_forall in P. now apply P.
Qed.

Lemma split_spaces_word (t rest cur : str) (in_gap : bool) :
  t <> [] -> Forall (fun c => js_space c = false) t ->
  split_spaces js_space cur in_gap (t ++ rest)
  = split_spaces js_space (cur ++ t) false rest.
Proof.
  revert cur in_gap; induction t as [|c t IH]; intros cur g Hne Ht;
    [contradiction|].
  inversion Ht as [|? ? Hc Ht']; subst.
  cbn [app split_spaces]. rewrite Hc.
  destruct t as [|c2 t].
  - reflexivity.
  - rewrite IH; [|discriminate|exact Ht'].
    now rewrite <- app_assoc.
Qed.

Lemma tokens_join (ts : list str) (in_gap : bool) :
  Forall (token js_space) ts ->
  filter truthy (split_spaces js_space [] in_gap (join (u " ") ts)) = ts.
Proof.
  intros H. revert in_gap.
  induction H as [|t ts [Hne Ht] Hts IH]; intros g; [reflexivity|].
  destruct ts as [|t2 ts].
  - cbn [join]. rewrite <- (app_nil_r t) at 1.
    rewrite (split_spaces_word [] [] g Hne Ht). cbn.
    destruct t; [contradiction|reflexivity].
  - rewrite join_cons2.
    rewrite (split_spaces_word _ [] g Hne Ht).
    change (u " " ++ join (u " ") (t2 :: ts))
      with (32%N :: join (u " ") (t2 :: ts)).
    cbn [split_spaces app]. rewrite space_is_space.
    cbn [filter]. rewrite (IH true).
    destruct t; [contradiction|reflexivity].
Qed.

Lemma join_first (t : str) (ts : list str) :
  token js_space t ->
  exists c r, join (u " ") (t :: ts) = c :: r /\ js_space c = false.
Proof.
  intros [Hne Ht]. destruct t as [|c t]; [contradiction|].
  inversion Ht; subst. destruct ts; cbn [join app]; eauto.
Qed.

Lemma join_last (ts : list str) :
  Forall (token js_space) ts -> ts <> [] ->
  exists i c, join (u " ") ts = i ++ [c] /\ js_space c = false.
Proof.
  induction 1 as [|t ts [Hne Ht] Hts IH]; intros Hts0; [contradiction|].
  clear Hts0. destruct ts as [|t2 ts].
  - destruct (exists_last Hne) as (i & c & ->).
    apply Forall_app in Ht as [_ Hc]. inversion Hc; subst.
    cbn [join]. eauto.
  - destruct IH as (i & c & E & Hc); [discriminate|].
    rewrite join_cons2, E. exists (t ++ u " " ++ i), c.
    split; [now rewrite <- !app_assoc|exact Hc].
Qed.

Lemma trim_join (ts : list str) :
  Forall (token js_space) ts -> trim js_space (join (u " ") ts) = join (u " ") ts.
Proof.
  intros H. destruct ts as [|t ts]; [reflexivity|].
  unfold trim, strip_by.
  inversion H as [|? ? Ht _]; subst.
  destruct (join_first ts Ht) as (c & r & E & Hc).
  rewrite E, (@lstrip_by_keep js_space c r Hc), <- E.
  destruct (join_last H) as (i & c' & E' & Hc'); [discriminate|].
  now rewrite E', rstrip_by_snoc, Hc'.
Qed.

(** X22: a click on a tag button whose tag is not empty and holds no
    white space leaves in the search box the tokens that were there, in
    their order and each once, and the tag, at the end unless it was
    there; a second click on the same button changes nothing. *)
Theorem click_tag_adds_once (data_tag text_content value : str) :
  data_tag <> [] ->
  Forall (fun c => js_space c = false) data_tag ->
  tokens_of js_space (click_tag js_space data_tag text_content value)
  = distinct str_eqb (tokens_of js_space value ++ [data_tag])
  /\ NoDup (tokens_of js_space
                      (click_tag js_space data_tag text_content value))
  /\ (forall t,
         In t (tokens_of js_space
                         (click_tag js_space data_tag text_content value))
         <-> In t (tokens_of js_space value) \/ t = data_tag)
  /\ click_tag js_space data_tag text_content
               (click_tag js_space data_tag text_content value)
     = click_tag js_space data_tag text_content value.
Proof.
  intros Hne Htag.
  assert (Hc : forall v,
             click_tag js_space data_tag text_content v
             = join (u " ")
                    (distinct str_eqb (tokens_of js_space v ++ [data_tag]))).
  { intros v. unfold click_tag.
    destruct data_tag; [contradiction|reflexivity]. }
  set (D := distinct str_eqb (tokens_of js_space value ++ [data_tag])).
  assert (HD : Forall (token js_space) D).
  { apply Forall_forall. intros t Ht.
    apply (proj1 (@distinct_In str str_eqb _ _ str_eqb_eq)) in Ht.
    apply in_app_or in Ht as [Ht|[<-|[]]].
    - pose proof (tokens_of_tokens value) as P.
      rewrite Forall_forall in P. now apply P.
    - now split. }
  assert (ND : NoDup D) by apply (@distinct_NoDup str str_eqb), str_eqb_eq.
  assert (HT : tokens_of js_space
                 (click_tag js_space data_tag text_content value) = D).
  { rewrite Hc. fold D. unfold tokens_of.
    now rewrite (trim_join HD), (tokens_join false HD). }
  split; [exact HT|]. split; [now rewrite HT|]. split.
  - intros t. rewrite HT. unfold D.
    rewrite (@distinct_In str str_eqb _ _ str_eqb_eq), in_app_iff.
    cbn [In]. intuition congruence.
  - rewrite (Hc (click_tag js_space data_tag text_content value)), HT.
    rewrite Hc. fold D. f_equal. apply distinct_snoc_member; [exact ND|].
    apply (proj2 (@distinct_In str str_eqb _ _ str_eqb_eq)).
    apply in_or_app. right. now left.
Qed.

End Clicks.

Lemma click_tag_adds_once_witness :
  click_tag es_space (u "共謀") (u "共謀")
            (click_tag es_space (u "共謀") (u "共謀") (u " 240  殺人 "))
  = click_tag es_space (u "共謀") (u "共謀") (u " 240  殺人 ").
Proof.
  refine (proj2 (proj2 (proj2
            (@click_tag_adds_once es_space _ (u "共謀") (u "共謀")
                                  (u " 240  殺人 ") _ _)))).
  - reflexivity.
  - discriminate.
  - repeat constructor.
Defined.

End TagScriptFacts.
